(** * readpdf: field extraction from PDF text, verified against its description

    A shallow embedding of [readpdf.py] and the properties its description
    states about it.

    - Python [str] values are lists of characters; a character is a code
      point below 256 (the Latin-1 part of Unicode), which is where every
      literal of the program lives.
    - [re.search] is modelled by a parser of pattern text and a backtracking
      matcher for the constructs the program's patterns use; a pattern
      outside that fragment gives [Unmodelled], never a guessed result.
    - The file system, the PDF reader and the clock are collaborators of
      the program and appear as section variables.  The state of a run is
      the trace of the calls to [logging] and the CSV files written, a file
      being its header and the cells of its rows (quoting and encoding are
      the business of [csv]). *)

From Stdlib Require Import List Ascii String Arith Lia Bool DecimalString.
From stdpp Require Import gmap strings sorting.
Import ListNotations.

Local Open Scope list_scope.
Local Open Scope bool_scope.

(** ** Python strings *)

Abbreviation str := (list ascii).

(** String literals of the source are written as Rocq string literals. *)
Coercion list_ascii_of_string : string >-> list.

Module Py.

(** [str.isspace] on one character: the white-space code points below 256. *)
Definition isspace (c : ascii) : bool :=
  let n := nat_of_ascii c in
  ((9 <=? n) && (n <=? 13)) || ((28 <=? n) && (n <=? 32))
  || (n =? 133) || (n =? 160).

(** Decimal digits below 256 are the ASCII ones. *)
Definition isdecimal (c : ascii) : bool :=
  let n := nat_of_ascii c in (48 <=? n) && (n <=? 57).

(** Simple lower-case mapping of one character. *)
Definition lower_char (c : ascii) : ascii :=
  let n := nat_of_ascii c in
  if ((65 <=? n) && (n <=? 90))
     || ((192 <=? n) && (n <=? 222) && negb (n =? 215))
  then ascii_of_nat (n + 32) else c.

Definition lower (s : str) : str := map lower_char s.

Fixpoint startswith (p s : str) : bool :=
  match p, s with
  | [], _ => true
  | _ :: _, [] => false
  | a :: p', b :: s' => Ascii.eqb a b && startswith p' s'
  end.

Definition endswith (p s : str) : bool := startswith (rev p) (rev s).

(** [sub in s] *)
Fixpoint contains (sub s : str) : bool :=
  startswith sub s ||
  match s with
  | [] => false
  | _ :: s' => contains sub s'
  end.

Fixpoint lstrip (s : str) : str :=
  match s with
  | [] => []
  | c :: s' => if isspace c then lstrip s' else s
  end.

Fixpoint rstrip (s : str) : str :=
  match s with
  | [] => []
  | c :: s' =>
      match rstrip s' with
      | [] => if isspace c then [] else [c]
      | r => c :: r
      end
  end.

(** [s.strip()] *)
Definition strip (s : str) : str := rstrip (lstrip s).

(** [s.replace(old, new)]: occurrences are found left to right and do not
    overlap; [skip] counts the characters of an occurrence still to drop. *)
Fixpoint replace_from (old new : str) (skip : nat) (s : str) : str :=
  match s with
  | [] => []
  | c :: s' =>
      match skip with
      | S k => replace_from old new k s'
      | O =>
          if startswith old s
          then new ++ replace_from old new (length old - 1) s'
          else c :: replace_from old new 0 s'
      end
  end.

Definition replace (old new s : str) : str :=
  match old with
  | [] => new ++ flat_map (fun c => c :: new) s
  | _ :: _ => replace_from old new 0 s
  end.

(** [s.partition(sep)]: the text before the first occurrence of [sep] and,
    when there is one, the text after it. *)
Fixpoint partition (sep s : str) : str * option str :=
  match s with
  | [] => ([], None)
  | c :: s' =>
      if startswith sep s then ([], Some (skipn (length sep) s))
      else let '(a, r) := partition sep s' in (c :: a, r)
  end.

Fixpoint split_fuel (n : nat) (sep s : str) : list str :=
  match partition sep s with
  | (a, None) => [a]
  | (a, Some r) =>
      match n with
      | O => [a; r]
      | S n' => a :: split_fuel n' sep r
      end
  end.

(** [s.split(sep)] for a non-empty separator (Python raises [ValueError]
    on an empty one; the program only splits on ["Base:"]). *)
Definition split (sep s : str) : list str := split_fuel (length s) sep s.

(** [l[0]] on a list of strings. *)
Definition item0 (l : list str) : str := hd [] l.

End Py.

(** ** Value cleanup: [clean_value] *)

Definition clean_value (value : str) : str :=
  match value with
  | [] => value
  | _ =>
      let value := Py.strip (Py.replace "R$" [] value) in
      if Py.contains "Base:" value
      then Py.strip (Py.item0 (Py.split "Base:" value))
      else value
  end.

(** ** The part of Python's [re] that the program exercises

    Patterns are parsed from their source text.  The parser covers literals,
    [.], [$], character sets with [\s], [\d] and escaped punctuation,
    capturing and [(?:...)] groups, alternation, and the quantifiers
    [*], [+], [?] (greedy or lazy) on one-character items.  A pattern
    outside this fragment is reported as [Unsupported], never guessed. *)

Module Re.

Inductive citem : Type :=
| CLit (c : ascii)
| CSpace
| CDigit.

(** A test on one character. *)
Inductive ctest : Type :=
| TLit (c : ascii)
| TAny
| TIn (negate : bool) (items : list citem).

Inductive regex : Type :=
| Empty
| Char (t : ctest)
| Star (t : ctest) (greedy : bool)
| Opt (t : ctest) (greedy : bool)
| Seq (a b : regex)
| Alt (a b : regex)
| Group (n : nat) (a : regex)
| AtEnd.

Inductive parsed (A : Type) : Type :=
| Parsed (a : A)
| Error          (* [re.error] *)
| Unsupported.   (* outside the modelled fragment *)
Arguments Parsed {A} a.
Arguments Error {A}.
Arguments Unsupported {A}.

Definition LF : ascii := ascii_of_nat 10.
Definition backslash : ascii := ascii_of_nat 92.

Definition is_alnum (c : ascii) : bool :=
  let n := nat_of_ascii c in
  ((48 <=? n) && (n <=? 57)) || ((65 <=? n) && (n <=? 90))
  || ((97 <=? n) && (n <=? 122)).

Definition is_repeat_char (c : ascii) : bool :=
  (c =? "*")%char || (c =? "+")%char || (c =? "?")%char || (c =? "{")%char.

(** The character after a backslash, inside or outside a set. *)
Definition escape (e : ascii) : parsed citem :=
  if (e =? "s")%char then Parsed CSpace
  else if (e =? "d")%char then Parsed CDigit
  else if (e =? "n")%char then Parsed (CLit LF)
  else if (e =? "t")%char then Parsed (CLit (ascii_of_nat 9))
  else if (e =? "r")%char then Parsed (CLit (ascii_of_nat 13))
  else if is_alnum e then Unsupported
  else if 128 <=? nat_of_ascii e then Unsupported
  else Parsed (CLit e).

(** The items of a set, after the opening bracket and the optional [^]. *)
Fixpoint parse_set (first : bool) (acc : list citem) (s : str)
  : parsed (list citem * str) :=
  let after (i : citem) (r : str) (continue : parsed (list citem * str)) :=
    match r with
    | d :: r1 =>
        if (d =? "-")%char then
          match r1 with
          | [] => Error
          | x :: r2 =>
              if (x =? "]")%char then Parsed (acc ++ [i; CLit d], r2)
              else Unsupported
          end
        else continue
    | [] => Error
    end in
  match s with
  | [] => Error
  | c :: r =>
      if (c =? "]")%char && negb first then Parsed (acc, r)
      else if (c =? backslash)%char then
        match r with
        | [] => Error
        | e :: r' =>
            match escape e with
            | Parsed i => after i r' (parse_set false (acc ++ [i]) r')
            | Error => Error
            | Unsupported => Unsupported
            end
        end
      else after (CLit c) r (parse_set false (acc ++ [CLit c]) r)
  end.

Inductive atom : Type :=
| AChar (t : ctest)
| AOther (r : regex).

Definition regex_of_atom (a : atom) : regex :=
  match a with AChar t => Char t | AOther r => r end.

(** An item followed by its quantifier, if any. *)
Definition quantify (a : atom) (rest : str) : parsed (regex * str) :=
  match rest with
  | q :: r =>
      if is_repeat_char q then
        match a with
        | AOther _ => Unsupported
        | AChar t =>
            if (q =? "{")%char then Unsupported
            else
              let '(greedy, r') :=
                match r with
                | x :: r2 => if (x =? "?")%char then (false, r2) else (true, r)
                | [] => (true, r)
                end in
              match r' with
              | y :: _ =>
                  if is_repeat_char y then Unsupported
                  else if (q =? "*")%char then Parsed (Star t greedy, r')
                  else if (q =? "+")%char
                       then Parsed (Seq (Char t) (Star t greedy), r')
                  else Parsed (Opt t greedy, r')
              | [] =>
                  if (q =? "*")%char then Parsed (Star t greedy, r')
                  else if (q =? "+")%char
                       then Parsed (Seq (Char t) (Star t greedy), r')
                  else Parsed (Opt t greedy, r')
              end
        end
      else Parsed (regex_of_atom a, rest)
  | [] => Parsed (regex_of_atom a, rest)
  end.

(** [parse_alts] reads alternatives up to a closing parenthesis or the end
    of the pattern; [parse_seq] reads one alternative.  [n] is the number
    of capturing groups opened so far. *)
Fixpoint parse_alts (fuel : nat) (s : str) (n : nat) {struct fuel}
  : parsed (regex * str * nat) :=
  match fuel with
  | O => Unsupported
  | S f =>
      match parse_seq f s n with
      | Parsed (a, rest, n1) =>
          match rest with
          | c :: rest' =>
              if (c =? "|")%char then
                match parse_alts f rest' n1 with
                | Parsed (b, rest2, n2) => Parsed (Alt a b, rest2, n2)
                | e => e
                end
              else Parsed (a, rest, n1)
          | [] => Parsed (a, rest, n1)
          end
      | e => e
      end
  end
with parse_seq (fuel : nat) (s : str) (n : nat) {struct fuel}
  : parsed (regex * str * nat) :=
  match fuel with
  | O => Unsupported
  | S f =>
      let item (a : atom) (rest : str) (n1 : nat) :=
        match quantify a rest with
        | Parsed (r, rest1) =>
            match parse_seq f rest1 n1 with
            | Parsed (more, rest2, n2) => Parsed (Seq r more, rest2, n2)
            | e => e
            end
        | Error => Error
        | Unsupported => Unsupported
        end in
      let group (body : str) (cap : option nat) (n1 : nat) :=
        match parse_alts f body n1 with
        | Parsed (r, rest, n2) =>
            match rest with
            | [] => Error
            | _ :: rest1 =>
                item (AOther match cap with
                             | Some i => Group i r
                             | None => r
                             end) rest1 n2
            end
        | e => e
        end in
      match s with
      | [] => Parsed (Empty, s, n)
      | c :: s' =>
          if (c =? "|")%char || (c =? ")")%char then Parsed (Empty, s, n)
          else if (c =? "(")%char then
            match s' with
            | q :: s2 =>
                if (q =? "?")%char then
                  match s2 with
                  | x :: s3 =>
                      if (x =? ":")%char then group s3 None n
                      else Unsupported
                  | [] => Unsupported
                  end
                else group s' (Some (S n)) (S n)
            | [] => Error
            end
          else if (c =? "[")%char then
            let '(neg, body) :=
              match s' with
              | x :: s2 => if (x =? "^")%char then (true, s2) else (false, s')
              | [] => (false, s')
              end in
            match parse_set true [] body with
            | Parsed (items, rest) => item (AChar (TIn neg items)) rest n
            | Error => Error
            | Unsupported => Unsupported
            end
          else if (c =? ".")%char then item (AChar TAny) s' n
          else if (c =? "$")%char then item (AOther AtEnd) s' n
          else if (c =? "^")%char || (c =? "{")%char then Unsupported
          else if is_repeat_char c then Error
          else if (c =? backslash)%char then
            match s' with
            | [] => Error
            | e :: s2 =>
                match escape e with
                | Parsed (CLit l) => item (AChar (TLit l)) s2 n
                | Parsed i => item (AChar (TIn false [i])) s2 n
                | Error => Error
                | Unsupported => Unsupported
                end
            end
          else item (AChar (TLit c)) s' n
      end
  end.

(** [re.compile]: the pattern and its number of capturing groups. *)
Definition compile (p : str) : parsed (regex * nat) :=
  match parse_alts (2 * length p + 2) p 0 with
  | Parsed (r, [], n) => Parsed (r, n)
  | Parsed (_, _ :: _, _) => Error
  | Error => Error
  | Unsupported => Unsupported
  end.

(** *** Matching

    A backtracking matcher in continuation-passing style: alternatives are
    tried left to right, a greedy quantifier tries the longest run first and
    a lazy one the shortest.  The state carries the text captured so far by
    the groups that are open and by those already closed. *)

Record caps : Type := Caps {
  opened : list (nat * str);
  closed : list (nat * str)
}.

Definition no_caps : caps := Caps [] [].

Definition extend (run : str) (g : caps) : caps :=
  Caps (map (fun '(i, a) => (i, a ++ run)) (opened g)) (closed g).

Definition push (c : ascii) (g : caps) : caps := extend [c] g.

Definition open_group (n : nat) (g : caps) : caps :=
  Caps ((n, []) :: opened g) (closed g).

Definition close_group (g : caps) : caps :=
  match opened g with
  | top :: o => Caps o (top :: closed g)
  | [] => g
  end.

Section Matching.

(** [re.IGNORECASE] *)
Variable ignorecase : bool.

Definition same_char (a b : ascii) : bool :=
  if ignorecase then Ascii.eqb (Py.lower_char a) (Py.lower_char b)
  else Ascii.eqb a b.

Definition item_test (i : citem) (c : ascii) : bool :=
  match i with
  | CLit l => same_char l c
  | CSpace => Py.isspace c
  | CDigit => Py.isdecimal c
  end.

Definition test (t : ctest) (c : ascii) : bool :=
  match t with
  | TLit l => same_char l c
  | TAny => negb (Ascii.eqb c LF)
  | TIn negate items =>
      xorb negate (existsb (fun i => item_test i c) items)
  end.

Definition cont : Type := str -> caps -> option caps.

Fixpoint star_greedy (t : ctest) (k : cont) (s : str) (g : caps)
  : option caps :=
  match s with
  | c :: s' =>
      if test t c then
        match star_greedy t k s' (push c g) with
        | Some r => Some r
        | None => k s g
        end
      else k s g
  | [] => k s g
  end.

Fixpoint star_lazy (t : ctest) (k : cont) (s : str) (g : caps)
  : option caps :=
  match k s g with
  | Some r => Some r
  | None =>
      match s with
      | c :: s' => if test t c then star_lazy t k s' (push c g) else None
      | [] => None
      end
  end.

Definition one (t : ctest) (k : cont) (s : str) (g : caps) : option caps :=
  match s with
  | c :: s' => if test t c then k s' (push c g) else None
  | [] => None
  end.

(** [$] without [re.MULTILINE]: the end of the text, or just before a
    line feed that ends the text. *)
Definition at_end (s : str) : bool :=
  match s with
  | [] => true
  | [c] => Ascii.eqb c LF
  | _ => false
  end.

Fixpoint m (r : regex) (k : cont) (s : str) (g : caps) : option caps :=
  match r with
  | Empty => k s g
  | Char t => one t k s g
  | Star t true => star_greedy t k s g
  | Star t false => star_lazy t k s g
  | Opt t true =>
      match one t k s g with
      | Some r => Some r
      | None => k s g
      end
  | Opt t false =>
      match k s g with
      | Some r => Some r
      | None => one t k s g
      end
  | Seq a b => m a (m b k) s g
  | Alt a b =>
      match m a k s g with
      | Some r => Some r
      | None => m b k s g
      end
  | Group n a => m a (fun s' g' => k s' (close_group g')) s (open_group n g)
  | AtEnd => if at_end s then k s g else None
  end.

Definition accept : cont := fun _ g => Some g.

(** The next character does not continue a run of [t]. *)
Definition stops (t : ctest) (rest : str) : Prop :=
  match rest with
  | [] => True
  | c :: _ => test t c = false
  end.

(** A match anchored at the start of [s]. *)
Definition match_here (r : regex) (s : str) : option caps :=
  m r accept s no_caps.

(** The leftmost match, as [re.search] finds it. *)
Fixpoint scan (r : regex) (s : str) : option caps :=
  match match_here r s with
  | Some g => Some g
  | None =>
      match s with
      | [] => None
      | _ :: s' => scan r s'
      end
  end.

End Matching.

(** The match object: the captured groups and the number of groups of the
    pattern. *)
Record match_object : Type := Match {
  captured : list (nat * str);
  ngroups : nat
}.

Fixpoint assoc (i : nat) (l : list (nat * str)) : option str :=
  match l with
  | [] => None
  | (j, v) :: l' => if i =? j then Some v else assoc i l'
  end.

(** [g'] comes after [g] in a match: the same groups are open and no
    closed group is lost. *)
Definition keeps (g g' : caps) : Prop :=
  map fst (opened g') = map fst (opened g)
  /\ forall n, is_Some (assoc n (closed g)) -> is_Some (assoc n (closed g')).

Definition IGNORECASE : bool := true.

(** Literal characters in sequence. *)
Definition lits (f : str) (r : regex) : regex :=
  fold_right (fun c acc => Seq (Char (TLit c)) acc) r f.

(** The shape shared by the program's patterns after the label: a greedy
    run of separators, then group [n] holding a greedy run of [valset]. *)
Definition separators_then_group (sepset valset : ctest) (n : nat) : regex :=
  Seq (Star sepset true)
      (Seq (Group n (Seq (Seq (Char valset) (Star valset true)) Empty))
           Empty).

(** The groups that are closed in every match of a pattern. *)
Fixpoint sure_groups (r : regex) : list nat :=
  match r with
  | Group n a => n :: sure_groups a
  | Seq a b => sure_groups a ++ sure_groups b
  | _ => []
  end.

(** The sets of the program's patterns. *)
Definition separator_set : ctest := TIn false [CLit ":"; CSpace].
Definition line_set : ctest := TIn true [CLit LF].
Definition value_set : ctest :=
  TIn false [CDigit; CLit "."; CLit "-"; CLit "/"].

(** [re.search(pattern, text, flags)] *)
Definition search (pattern text : str) (ignorecase : bool)
  : parsed (option match_object) :=
  match compile pattern with
  | Parsed (r, n) =>
      Parsed (match scan ignorecase r text with
              | Some g => Some (Match (closed g) n)
              | None => None
              end)
  | Error => Error
  | Unsupported => Unsupported
  end.

End Re.

(** ** Outcomes of a call: a returned value or a raised exception *)

Inductive exn : Type :=
| re_error
| AttributeError
| IndexError.

Inductive outcome (A : Type) : Type :=
| Returns (a : A)
| Raises (e : exn)
| Unmodelled.
Arguments Returns {A} a.
Arguments Raises {A} e.
Arguments Unmodelled {A}.

(** [match.group(i)]: [None] for a group that took no part in the match. *)
Definition group (mo : Re.match_object) (i : nat) : outcome (option str) :=
  if Re.ngroups mo <? i then Raises IndexError
  else Returns (Re.assoc i (Re.captured mo)).

(** [x.strip()] on the result of [match.group]. *)
Definition strip_group (o : outcome (option str)) : outcome str :=
  match o with
  | Returns (Some v) => Returns (Py.strip v)
  | Returns None => Raises AttributeError
  | Raises e => Raises e
  | Unmodelled => Unmodelled
  end.

(** ** The Field Matcher: [find_field_value] *)

Definition patterns : list (str * str) :=
  [ ("Valor Base para Fins Rescisorios" : str,
     "Valor Base para Fins :\s*(R\$\s*[\d\.,]+\s*.*?)(?:\s*Base:|$)" : str);
    ("Nome" : str, "Nome[:\s]*([^\n]+)" : str);
    ("PIS/PASEP/NIT" : str, "(PIS/PASEP/NIT|PIS)[:\s]*([\d\.\-/]+)" : str) ].

Definition str_eqb (a b : str) : bool :=
  bool_decide (a = b).

(** [d.get(key, default)] *)
Fixpoint dict_get (d : list (str * str)) (key default : str) : str :=
  match d with
  | [] => default
  | (k, v) :: d' => if str_eqb key k then v else dict_get d' key default
  end.

(** The fallback pattern.  The source writes it as a non-raw f-string, so
    its [\n] is a line feed already and its [\s] reaches [re] unchanged. *)
Definition generic_pattern (field_name : str) : str :=
  field_name ++ "[:\s]*([^" ++ [Re.LF] ++ "]+)".

Definition find_field_value (text field_name : str) : outcome (option str) :=
  let pattern := dict_get patterns field_name (generic_pattern field_name) in
  match Re.search pattern text Re.IGNORECASE with
  | Re.Error => Raises re_error
  | Re.Unsupported => Unmodelled
  | Re.Parsed None => Returns None
  | Re.Parsed (Some mo) =>
      if str_eqb field_name "PIS/PASEP/NIT" && (1 <? Re.ngroups mo)
      then
        match strip_group (group mo 2) with
        | Returns v => Returns (Some v)
        | Raises e => Raises e
        | Unmodelled => Unmodelled
        end
      else
        match strip_group (group mo 1) with
        | Returns v => Returns (Some (clean_value v))
        | Raises e => Raises e
        | Unmodelled => Unmodelled
        end
  end.

(** Whether the pattern of a field matches [text] at offset [n]; the
    properties below use it to say where the leftmost match begins. *)
Definition matches_at (field_name text : str) (n : nat) : bool :=
  match Re.compile (dict_get patterns field_name (generic_pattern field_name))
  with
  | Re.Parsed (r, _) =>
      match Re.match_here Re.IGNORECASE r (skipn n text) with
      | Some _ => true
      | None => false
      end
  | _ => false
  end.

(** No match of the field's pattern begins inside the first [k] characters. *)
Definition unmatched_before (field_name text : str) (k : nat) : Prop :=
  forall n, n < k -> matches_at field_name text n = false.

(** ** The Batch Aggregator and the Result Sink

    Effects are threaded through a small monad: the state is the trace of
    calls to [logging] and the files written; a computation returns a value
    or propagates an exception. *)

Inductive level : Type := DEBUG | INFO | WARNING | ERROR.

(** A written CSV file: its header and the cells of its rows. *)
Record table : Type := Table {
  header : list str;
  rows : list (list str)
}.

Record world : Type := World {
  logged : list (level * str);
  files : list (str * table)
}.

Definition prog (A : Type) : Type := world -> outcome A * world.

Definition ret {A : Type} (a : A) : prog A := fun w => (Returns a, w).

Definition bind {A B : Type} (c : prog A) (k : A -> prog B) : prog B :=
  fun w =>
    match c w with
    | (Returns a, w') => k a w'
    | (Raises e, w') => (Raises e, w')
    | (Unmodelled, w') => (Unmodelled, w')
    end.

Definition lift {A : Type} (o : outcome A) : prog A := fun w => (o, w).

Definition logging (l : level) (msg : str) : prog unit :=
  fun w => (Returns tt, World (logged w ++ [(l, msg)]) (files w)).

Definition write_file (path : str) (t : table) : prog unit :=
  fun w => (Returns tt, World (logged w) (files w ++ [(path, t)])).

#[global] Instance prog_ret : MRet prog := @ret.
#[global] Instance prog_bind : MBind prog := fun A B k c => bind c k.

(** [for x in l: acc = body x acc] *)
Fixpoint for_each {A S : Type} (l : list A) (body : A -> S -> prog S)
  (acc : S) : prog S :=
  match l with
  | [] => ret acc
  | x :: l' => acc' ← body x acc; for_each l' body acc'
  end.

(** What a collaborator hands back: a value, or the message of the
    exception it raised. *)
Inductive attempt (A : Type) : Type :=
| Done (a : A)
| Failed (message : str).
Arguments Done {A} a.
Arguments Failed {A} message.

Record Config : Type := mkConfig {
  source_folder : str;
  output_folder : str;
  fields_to_extract : list str
}.

(** A Record of the result set is a Python [dict] from column to value. *)
Abbreviation record_t := (gmap str str).

(** [value if value else 'No encontrado'] *)
Definition or_not_found (value : option str) : str :=
  match value with
  | Some ((_ :: _) as v) => v
  | _ => "No encontrado"
  end.

(** [sep.join(l)] *)
Fixpoint join (sep : str) (l : list str) : str :=
  match l with
  | [] => []
  | [x] => x
  | x :: l' => x ++ sep ++ join sep l'
  end.

(** Python orders strings by code point, lexicographically. *)
Fixpoint str_leb (a b : str) : bool :=
  match a, b with
  | [], _ => true
  | _ :: _, [] => false
  | x :: a', y :: b' =>
      (nat_of_ascii x <? nat_of_ascii y)
      || ((nat_of_ascii x =? nat_of_ascii y) && str_leb a' b')
  end.

Definition str_le (a b : str) : Prop := str_leb a b = true.

#[global] Instance str_le_dec : RelDecision str_le.
Proof. intros a b. unfold str_le. apply _. Defined.

(** [sorted(s)] for a set of strings *)
Definition sorted (s : gset str) : list str := merge_sort str_le (elements s).

(** [str(n)] for a non-negative integer *)
Definition str_of_nat (n : nat) : str :=
  list_ascii_of_string (NilEmpty.string_of_uint (Nat.to_uint n)).

Section Program.

(** Collaborators: the file system, the PDF reader, the clock. *)
Variable path_exists : str -> bool.
Variable listdir : str -> list str.
Variable path_join : str -> str -> str.
(** Opening a PDF gives its pages; extracting the text of a page may fail
    as well. *)
Variable pdf_open : str -> attempt (list (attempt str)).
(** Opening the CSV file for writing. *)
Variable csv_open : str -> attempt unit.
(** [datetime.datetime.now().strftime("%Y%m%d_%H%M%S")] *)
Variable timestamp : str.

(** The loop [text += page.extract_text() + '\n']. *)
Fixpoint read_pages (pages : list (attempt str)) (text : str) : attempt str :=
  match pages with
  | [] => Done text
  | Done t :: pages' => read_pages pages' (text ++ t ++ [Re.LF])
  | Failed message :: _ => Failed message
  end.

(** The body of the [try] block: the text of all pages, or the message of
    the exception that interrupted it. *)
Definition read_pdf (pdf_path : str) : attempt str :=
  match pdf_open pdf_path with
  | Failed message => Failed message
  | Done pages => read_pages pages []
  end.

Definition extract_text_from_pdf (pdf_path : str) : prog str :=
  match read_pdf pdf_path with
  | Done text => ret text
  | Failed message =>
      logging ERROR ("Error al leer el archivo " ++ pdf_path ++ ": " ++ message)
      ;; ret []
  end.

(** The body of the loop [for field in fields]. *)
Definition field_loop_body (text field : str) (record : record_t) : prog record_t :=
  value ← lift (find_field_value text field);
  let record := <[field := or_not_found value]> record in
  logging DEBUG ("Campo " ++ field ++ ": " ++ default [] (record !! field)) ;;
  ret record.

(** The body of the loop [for pdf_file in pdf_files]. *)
Definition pdf_loop_body (source_folder : str) (fields : list str)
  (pdf_file : str) (results : list record_t) : prog (list record_t) :=
  let pdf_path := path_join source_folder pdf_file in
  logging INFO ("Procesando archivo: " ++ pdf_file) ;;
  text ← extract_text_from_pdf pdf_path;
  match text with
  | [] => ret results
  | _ =>
      record ← for_each fields (field_loop_body text)
                 ({[ ("Archivo" : str) := pdf_file ]} : record_t);
      ret (results ++ [record])
  end.

Definition process_pdfs (config : Config) : prog (list record_t) :=
  let results : list record_t := [] in
  let source_folder := source_folder config in
  let fields := fields_to_extract config in
  if negb (path_exists source_folder) then
    logging ERROR ("La carpeta fuente no existe: " ++ source_folder) ;;
    ret results
  else
    let pdf_files :=
      filter (fun f => Is_true (Py.endswith ".pdf" (Py.lower f)))
             (listdir source_folder) in
    match pdf_files with
    | [] =>
        logging WARNING "No se encontraron archivos PDF en la carpeta fuente"
        ;; ret results
    | _ => for_each pdf_files (pdf_loop_body source_folder fields) results
    end.

(** *** Notions used to state the properties of a run *)

(** The documents the run iterates over. *)
Definition input_documents (config : Config) : list str :=
  if path_exists (source_folder config)
  then filter (fun f => Is_true (Py.endswith ".pdf" (Py.lower f)))
              (listdir (source_folder config))
  else [].

(** The text the extractor hands to the aggregator for a document: empty
    when reading failed. *)
Definition document_text (config : Config) (pdf_file : str) : str :=
  match read_pdf (path_join (source_folder config) pdf_file) with
  | Done text => text
  | Failed _ => []
  end.

(** The documents that yield a Record. *)
Definition surviving_documents (config : Config) : list str :=
  filter (fun f => document_text config f <> []) (input_documents config).

(** [r] is the Record built for [pdf_file]: it has the identifier column
    and one column per configured field, holding what the Field Matcher
    returned or the placeholder. *)
Definition record_of (config : Config) (pdf_file : str) (r : record_t) : Prop :=
  dom r = {[ ("Archivo" : str) ]} ∪ list_to_set (fields_to_extract config)
  /\ (forall field, field ∈ fields_to_extract config ->
        exists value,
          find_field_value (document_text config pdf_file) field
            = Returns value
          /\ r !! field = Some (or_not_found value))
  /\ (("Archivo" : str) ∉ fields_to_extract config ->
        r !! ("Archivo" : str) = Some pdf_file).

(** The entry logged when reading a document fails. *)
Definition read_failure (config : Config) (pdf_file message : str)
  : level * str :=
  (ERROR, "Error al leer el archivo "
          ++ path_join (source_folder config) pdf_file ++ ": " ++ message).

(** What the aggregator logs when it has nothing to process. *)
Definition nothing_found (config : Config) : level * str :=
  if path_exists (source_folder config)
  then (WARNING, "No se encontraron archivos PDF en la carpeta fuente" : str)
  else (ERROR, "La carpeta fuente no existe: " ++ source_folder config).

(** The row [csv.DictWriter] writes for a dict: one cell per column of the
    header, empty where the dict has no such key. *)
Definition writerow (fieldnames : list str) (rowdict : record_t) : list str :=
  map (fun k => default [] (rowdict !! k)) fieldnames.

(** The [try] block fails as a whole when the file cannot be opened; the
    folder creation before it has no part in what follows. *)
Definition save_results_to_csv (results : list record_t) (output_folder : str)
  : prog str :=
  match results with
  | [] => ret []
  | _ =>
      let csv_filename := "br_" ++ timestamp ++ ".csv" in
      let csv_path := path_join output_folder csv_filename in
      let fieldnames := sorted (⋃ (dom <$> results)) in
      match csv_open csv_path with
      | Done _ =>
          write_file csv_path
            (Table fieldnames
               (map (fun record : record_t =>
                       let cleaned_record := clean_value <$> record in
                       writerow fieldnames cleaned_record)
                    results)) ;;
          logging INFO ("Archivo CSV generado exitosamente: " ++ csv_path) ;;
          ret csv_path
      | Failed message =>
          logging ERROR ("Error al generar archivo CSV: " ++ message) ;;
          ret []
      end
  end.

(** [main], from the configuration that [read_config] returned and after
    the set-up of the console and of the log handlers. *)
Definition main (config : Config) : prog unit :=
  logging INFO "Iniciando procesamiento de archivos PDF" ;;
  logging INFO ("Carpeta fuente: " ++ source_folder config) ;;
  logging INFO ("Carpeta de salida: " ++ output_folder config) ;;
  logging INFO ("Campos a extraer: " ++ join ", " (fields_to_extract config)) ;;
  results ← process_pdfs config;
  match results with
  | _ :: _ =>
      csv_path ← save_results_to_csv results (output_folder config);
      match csv_path with
      | _ :: _ =>
          logging INFO ("Proceso completado. " ++ str_of_nat (length results)
                        ++ " registros procesados.")
      | [] => logging ERROR "No se pudo generar el archivo CSV"
      end
  | [] =>
      logging WARNING
        "No se procesaron registros. Verifique los archivos PDF de entrada."
  end.

End Program.

(** ** Notions used to state the properties *)

(** *** The fields of the pattern table *)

(** The field names the pattern table knows. *)
Definition known_field (field_name : str) : Prop :=
  In field_name (map fst patterns).

(** The key of the currency pattern, and the line the description uses as
    its example. *)
Definition currency_field : str := "Valor Base para Fins Rescisorios".

Definition currency_sample : str :=
  "Valor Base para Fins : R$ 1.234,56 Base: R$ 1.000,00".

(** The identifier field.  Its pattern accepts a run of separators after
    the label and then a run of value characters. *)
Definition pis_field : str := "PIS/PASEP/NIT".

Definition is_separator (c : ascii) : bool := (c =? ":")%char || Py.isspace c.

Definition is_value_char (c : ascii) : bool :=
  Py.isdecimal c || (c =? ".")%char || (c =? "-")%char || (c =? "/")%char.

(** The value is not continued by what follows it. *)
Definition ends_value (post : str) : Prop :=
  match post with
  | [] => True
  | c :: _ => is_value_char c = false
  end.

(** *** The fallback pattern *)

(** The characters with a meaning of their own in a pattern; a field name
    without them is read by [re] character by character. *)
Definition special_chars : str := "|)([.$^{*+?" ++ [Re.backslash].

Definition plain (c : ascii) : bool :=
  negb (existsb (Ascii.eqb c) special_chars).

(** The captured line ends with the text or at a line feed. *)
Definition ends_line (post : str) : Prop :=
  match post with
  | [] => True
  | c :: _ => c = Re.LF
  end.

(** What [generic_pattern] appends to the field name. *)
Definition generic_tail : str := "[:\s]*([^" ++ [Re.LF] ++ "]+)".

Section Shapes.
Import Re.

(** The patterns of the table and of the fallback, as [compile] reads
    them. *)
Definition pis_after_label_regex : regex :=
  separators_then_group separator_set value_set 2.

Definition pis_regex : regex :=
  Seq (Group 1 (Alt (lits "PIS/PASEP/NIT" Empty) (lits "PIS" Empty)))
      pis_after_label_regex.

Definition generic_tail_regex : regex :=
  separators_then_group separator_set line_set 1.

(** The next character of the pattern is not a quantifier. *)
Definition next_not_repeat (s : str) : Prop :=
  match s with
  | [] => True
  | x :: _ => is_repeat_char x = false
  end.

End Shapes.

(** *** Runs of the program *)

(** A run only adds to the log and, inside the aggregator, writes no file. *)
Definition grows (w w' : world) : Prop :=
  files w' = files w /\ exists l, logged w' = logged w ++ l.

Definition is_failure_report (e : level * str) : bool :=
  match fst e with
  | WARNING | ERROR => true
  | _ => false
  end.

Definition empty_world : world := World [] [].

(** A sample batch: the folder [in] lists three PDF documents and a text
    file; [b.pdf] cannot be read. *)
Definition sample_join (a b : str) : str := a ++ "/" ++ b.

Definition sample_listdir (folder : str) : list str :=
  ["a.pdf" : str; "b.pdf" : str; "c.PDF" : str; "notas.txt" : str].

Definition sample_open (pdf_path : str) : attempt (list (attempt str)) :=
  if str_eqb pdf_path "in/a.pdf"
  then Done [Done ("Nome: Ana" ++ [Re.LF] ++ "PIS: 123.456")]
  else if str_eqb pdf_path "in/b.pdf"
  then Failed "EOF marker not found"
  else Done [Done ("X: R$ Base: 3" : str)].

Definition sample_config : Config :=
  mkConfig "in" "out" ["Nome" : str; "PIS/PASEP/NIT" : str; "X" : str].

Definition sample_run : outcome (list record_t) * world :=
  process_pdfs (fun _ => true) sample_listdir sample_join sample_open
    sample_config empty_world.

Definition sample_results : list record_t :=
  match fst sample_run with
  | Returns results => results
  | _ => []
  end.

(** The same batch with a reader for which [b.pdf] opens but has no
    page. *)
Definition silent_open (pdf_path : str) : attempt (list (attempt str)) :=
  if str_eqb pdf_path "in/b.pdf" then Done [] else sample_open pdf_path.

(** A result set whose identifier shows both the marker and the
    terminator. *)
Definition marked_results : list record_t :=
  [ <[ ("Nome" : str) := ("Ana" : str) ]>
      {[ ("Archivo" : str) := ("R$ 5 Base: 7.pdf" : str) ]} ].

(** ** Notions used by the further properties *)

(** The pattern the table holds for the currency field. *)
Definition currency_pattern : str :=
  "Valor Base para Fins :\s*(R\$\s*[\d\.,]+\s*.*?)(?:\s*Base:|$)".


(** What follows the label and its separators is no value: the text ends,
    or goes on with a character that is neither a separator nor a value
    character. *)
Definition no_value (rest : str) : Prop :=
  match rest with
  | [] => True
  | c :: _ => is_separator c = false /\ is_value_char c = false
  end.


(** The text of a document all of whose pages are read: every page
    followed by a line feed, in order. *)
Definition pages_text (texts : list str) : str :=
  concat (map (fun t => t ++ [Re.LF]) texts).

(** Reading stops at the first page that fails, after [texts]. *)
Definition fails_with (pages : list (attempt str)) (message : str) : Prop :=
  exists texts later, pages = map Done texts ++ Failed message :: later.

(** The call returned, rather than raised. *)
Definition returned {A : Type} (o : outcome A) : bool :=
  match o with
  | Returns _ => true
  | _ => false
  end.

(** The sample batch with a second field whose name is no valid pattern. *)
Definition broken_config : Config :=
  mkConfig "in" "out" ["Nome" : str; "Valor (R$" : str].

(** [c] only adds to the log, whatever it returns or raises. *)
Definition only_logs {A : Type} (c : prog A) : Prop :=
  forall w o w', c w = (o, w') -> grows w w'.

(** What [main] logs before it calls the aggregator, and the state in
    which the aggregator starts. *)
Definition banner (config : Config) : list (level * str) :=
  [ (INFO, "Iniciando procesamiento de archivos PDF" : str);
    (INFO, "Carpeta fuente: " ++ source_folder config);
    (INFO, "Carpeta de salida: " ++ output_folder config);
    (INFO, "Campos a extraer: " ++ join ", " (fields_to_extract config)) ].

Definition started (config : Config) (w : world) : world :=
  World (logged w ++ banner config) (files w).

(** The last entry [main] logs when there is no Record. *)
Definition no_records_warning : level * str :=
  (WARNING,
   "No se procesaron registros. Verifique los archivos PDF de entrada." : str).

(** The aggregator on the sample batch, started by [main]. *)
Definition sample_started_run : outcome (list record_t) * world :=
  process_pdfs (fun _ => true) sample_listdir sample_join sample_open
    sample_config (started sample_config empty_world).

Definition sample_started_results : list record_t :=
  match fst sample_started_run with
  | Returns results => results
  | _ => []
  end.

(** * Properties *)

(** ** Facts about the string operations *)

Module PyFacts.
Import Py.

Lemma startswith_spec (p s : str) :
  startswith p s = true <-> exists t, s = p ++ t.
Proof.
  revert s. induction p as [|a p IH]; intros s; simpl.
  - split; eauto.
  - destruct s as [|b s].
    + split; [discriminate | intros [t Ht]; discriminate].
    + rewrite andb_true_iff, Ascii.eqb_eq, IH. split.
      * intros [-> [t ->]]. eauto.
      * intros [t Ht]. injection Ht as -> ->. eauto.
Qed.

Lemma startswith_contains (sub s : str) :
  startswith sub s = true -> contains sub s = true.
Proof. intros H. destruct s; simpl; rewrite H; reflexivity. Qed.

Lemma contains_spec (sub s : str) :
  contains sub s = true <-> exists l r, s = l ++ sub ++ r.
Proof.
  induction s as [|c s IH]; simpl.
  - rewrite orb_false_r, startswith_spec. split.
    + intros [t Ht]. exists [], t. exact Ht.
    + intros (l & r & H). symmetry in H.
      apply app_eq_nil in H as [-> H]. apply app_eq_nil in H as [-> ->].
      exists []. reflexivity.
  - rewrite orb_true_iff, IH, startswith_spec. split.
    + intros [[t Ht] | (l & r & ->)].
      * exists [], t. exact Ht.
      * exists (c :: l), r. reflexivity.
    + intros (l & r & H). destruct l as [|x l]; simpl in H.
      * left. eauto.
      * right. injection H as -> ->. eauto.
Qed.

Lemma contains_infix (sub l mid r : str) :
  contains sub mid = true -> contains sub (l ++ mid ++ r) = true.
Proof.
  rewrite !contains_spec. intros (l' & r' & ->).
  exists (l ++ l'), (r' ++ r). rewrite <- !app_assoc. reflexivity.
Qed.

Lemma not_contains_infix (sub l mid r : str) :
  contains sub (l ++ mid ++ r) = false -> contains sub mid = false.
Proof.
  intros H. destruct (contains sub mid) eqn:E; [|reflexivity].
  apply (contains_infix sub l mid r) in E. congruence.
Qed.

(** *** [strip] *)

Lemma lstrip_suffix (s : str) : exists l, s = l ++ lstrip s.
Proof.
  induction s as [|c s [l IH]]; simpl.
  - exists []. reflexivity.
  - destruct (isspace c).
    + exists (c :: l). simpl. congruence.
    + exists []. reflexivity.
Qed.

Lemma rstrip_prefix (s : str) : exists r, s = rstrip s ++ r.
Proof.
  induction s as [|c s [r IH]]; simpl.
  - exists []. reflexivity.
  - destruct (rstrip s) as [|x y] eqn:E.
    + destruct (isspace c).
      * exists (c :: s). reflexivity.
      * exists r. simpl. simpl in IH. congruence.
    + exists r. simpl. rewrite IH at 1. reflexivity.
Qed.

Lemma strip_infix (s : str) : exists l r, s = l ++ strip s ++ r.
Proof.
  unfold strip. destruct (lstrip_suffix s) as [l Hl].
  destruct (rstrip_prefix (lstrip s)) as [r Hr].
  exists l, r. rewrite <- Hr. exact Hl.
Qed.

Lemma strip_length (s : str) : length (strip s) <= length s.
Proof.
  destruct (strip_infix s) as (l & r & H).
  rewrite H at 2. rewrite !length_app. lia.
Qed.

Lemma strip_keeps_absence (sub s : str) :
  contains sub s = false -> contains sub (strip s) = false.
Proof.
  intros H. destruct (strip_infix s) as (l & r & E).
  rewrite E in H. exact (not_contains_infix _ _ _ _ H).
Qed.

Lemma rstrip_rstrip (s : str) : rstrip (rstrip s) = rstrip s.
Proof.
  induction s as [|c s IH]; simpl; [reflexivity|].
  destruct (rstrip s) as [|x y] eqn:E.
  - destruct (isspace c) eqn:Ec; simpl; [reflexivity|]. rewrite Ec. reflexivity.
  - simpl. simpl in IH. rewrite IH. reflexivity.
Qed.

Lemma rstrip_head (c : ascii) (s : str) :
  isspace c = false -> exists t, rstrip (c :: s) = c :: t.
Proof.
  intros Hc. simpl. destruct (rstrip s); [rewrite Hc|]; eauto.
Qed.

Lemma lstrip_head (s : str) :
  lstrip s = [] \/ exists c t, lstrip s = c :: t /\ isspace c = false.
Proof.
  induction s as [|c s IH]; simpl; [left; reflexivity|].
  destruct (isspace c) eqn:E; [exact IH|]. right. eauto.
Qed.

Lemma strip_strip (s : str) : strip (strip s) = strip s.
Proof.
  unfold strip. destruct (lstrip_head s) as [-> | (c & t & -> & Hc)].
  - reflexivity.
  - destruct (rstrip_head c t Hc) as [u Hu]. rewrite Hu.
    simpl lstrip. rewrite Hc, <- Hu. apply rstrip_rstrip.
Qed.

(** *** [replace] *)

Lemma replace_from_skip (old new : str) (k : nat) (s : str) :
  replace_from old new k s = replace_from old new 0 (skipn k s).
Proof.
  revert k. induction s as [|c s IH]; intros k.
  - destruct k; reflexivity.
  - destruct k; [reflexivity|]. simpl. apply IH.
Qed.

Lemma replace_cons (o : ascii) (old new : str) (c : ascii) (s : str) :
  replace (o :: old) new (c :: s) =
  if startswith (o :: old) (c :: s)
  then new ++ replace (o :: old) new (skipn (length old) s)
  else c :: replace (o :: old) new s.
Proof.
  unfold replace. cbn [replace_from].
  destruct (startswith (o :: old) (c :: s)); [|reflexivity].
  rewrite replace_from_skip. simpl. rewrite Nat.sub_0_r. reflexivity.
Qed.

Lemma replace_absent (o : ascii) (old new s : str) :
  contains (o :: old) s = false -> replace (o :: old) new s = s.
Proof.
  induction s as [|c s IH]; [reflexivity|].
  intros H. cbn [contains] in H. apply orb_false_iff in H as [H1 H2].
  rewrite replace_cons, H1, IH by exact H2. reflexivity.
Qed.

Lemma replace_erase_length (o : ascii) (old s : str) :
  length (replace (o :: old) [] s) <= length s /\
  (contains (o :: old) s = true ->
   length (replace (o :: old) [] s) < length s).
Proof.
  remember (length s) as n eqn:Hn. revert s Hn.
  induction n as [n IH] using lt_wf_ind. intros s ->.
  destruct s as [|c s].
  - split; [simpl; lia|]. simpl. discriminate.
  - rewrite replace_cons. cbn [contains].
    destruct (startswith (o :: old) (c :: s)) eqn:E.
    + assert (L : length (skipn (length old) s) < length (c :: s)).
      { rewrite length_skipn. simpl. lia. }
      destruct (IH _ L _ eq_refl) as [H1 _].
      rewrite length_skipn in H1. cbn [app length].
      split; [lia | intros _; lia].
    + assert (L : length s < length (c :: s)) by (simpl; lia).
      destruct (IH _ L _ eq_refl) as [H1 H2]. cbn [length orb].
      split; [lia|]. intros H. apply H2 in H. lia.
Qed.

(** *** [split] *)

Lemma item0_split (sep s : str) : item0 (split sep s) = fst (partition sep s).
Proof.
  unfold split, item0. destruct (length s); simpl;
    destruct (partition sep s) as [a [r|]]; reflexivity.
Qed.

Lemma partition_prefix (sep s : str) :
  exists r, s = fst (partition sep s) ++ r.
Proof.
  induction s as [|c s [r IH]]; simpl.
  - exists []. reflexivity.
  - destruct (startswith sep (c :: s)).
    + exists (c :: s). reflexivity.
    + destruct (partition sep s) as [a q]. simpl in *.
      exists r. congruence.
Qed.

Lemma partition_before (o : ascii) (sep s : str) :
  contains (o :: sep) (fst (partition (o :: sep) s)) = false.
Proof.
  induction s as [|c s IH]; [reflexivity|].
  cbn [partition]. destruct (startswith (o :: sep) (c :: s)) eqn:E.
  - reflexivity.
  - destruct (partition_prefix (o :: sep) s) as [r Hr].
    destruct (partition (o :: sep) s) as [a q]. cbn [fst] in *.
    cbn [contains]. rewrite IH, orb_false_r.
    destruct (startswith (o :: sep) (c :: a)) eqn:E'; [|reflexivity].
    apply startswith_spec in E' as [t Ht].
    assert (startswith (o :: sep) (c :: s) = true); [|congruence].
    apply startswith_spec. exists (t ++ r).
    rewrite Hr, app_comm_cons, Ht, <- app_assoc. reflexivity.
Qed.

Lemma partition_length (sep s : str) :
  length (fst (partition sep s)) <= length s.
Proof.
  destruct (partition_prefix sep s) as [r H].
  rewrite H at 2. rewrite length_app. lia.
Qed.

End PyFacts.

(** ** Value cleanup *)

Section CleanValue.
Import Py PyFacts.

Lemma clean_value_unfold (c : ascii) (v : str) :
  clean_value (c :: v) =
  let x := strip (replace "R$" [] (c :: v)) in
  if contains "Base:" x then strip (fst (partition "Base:" x)) else x.
Proof. unfold clean_value. cbv zeta. rewrite item0_split. reflexivity. Qed.

(** A cleaned value has no white space at either end. *)
Lemma clean_value_stripped (v : str) : strip (clean_value v) = clean_value v.
Proof.
  destruct v as [|c v]; [reflexivity|].
  rewrite clean_value_unfold. cbv zeta.
  destruct (contains "Base:" (strip (replace "R$" [] (c :: v))));
    apply strip_strip.
Qed.

(** A cleaned value never contains the terminator. *)
Lemma clean_value_no_terminator (v : str) :
  contains "Base:" (clean_value v) = false.
Proof.
  destruct v as [|c v]; [reflexivity|].
  rewrite clean_value_unfold. cbv zeta.
  destruct (contains "Base:" (strip (replace "R$" [] (c :: v)))) eqn:E;
    [|exact E].
  apply strip_keeps_absence.
  apply (partition_before "B" ["a"; "s"; "e"; ":"]%char).
Qed.

Lemma clean_value_length (c : ascii) (v : str) :
  length (clean_value (c :: v)) <= length (replace "R$" [] (c :: v)).
Proof.
  rewrite clean_value_unfold. cbv zeta.
  pose proof (strip_length (replace "R$" [] (c :: v))) as H.
  destruct (contains "Base:" (strip (replace "R$" [] (c :: v))));
    [|exact H].
  etransitivity; [apply strip_length|].
  etransitivity; [apply partition_length|]. exact H.
Qed.

(** Cleaning a value that still shows the currency marker shortens it. *)
Lemma clean_value_shrinks (w : str) :
  contains "R$" w = true -> length (clean_value w) < length w.
Proof.
  intros H. destruct w as [|c w]; [discriminate|].
  pose proof (clean_value_length c w) as L.
  destruct (replace_erase_length "R" ["$"%char] (c :: w)) as [_ S].
  specialize (S H). change ("R"%char :: ["$"%char]) with ("R$" : str) in S.
  lia.
Qed.

(** Cleaning leaves alone a value that is already clean and shows no
    currency marker. *)
Lemma clean_value_fixed (w : str) :
  strip w = w -> contains "Base:" w = false -> contains "R$" w = false ->
  clean_value w = w.
Proof.
  intros Hs Hb Hr. destruct w as [|c w]; [reflexivity|].
  rewrite clean_value_unfold. cbv zeta.
  assert (E : replace "R$" [] (c :: w) = c :: w)
    by exact (replace_absent "R" ["$"%char] [] (c :: w) Hr).
  rewrite E, Hs, Hb. reflexivity.
Qed.

End CleanValue.

(** C2, as the description states it, fails: one pass over ["RR$$"] removes
    the inner marker and the outer characters close up into a new one. *)
Lemma clean_value_not_idempotent :
  clean_value (clean_value "RR$$") <> clean_value "RR$$".
Proof. vm_compute. discriminate. Qed.

(** C2, amended: cleaning twice equals cleaning once exactly when the
    cleaned value no longer contains the currency marker ["R$"]. *)
Theorem clean_value_idempotent_iff (v : str) :
  clean_value (clean_value v) = clean_value v
  <-> Py.contains "R$" (clean_value v) = false.
Proof.
  split.
  - intros H. destruct (Py.contains "R$" (clean_value v)) eqn:E; [|reflexivity].
    apply clean_value_shrinks in E. rewrite H in E. lia.
  - intros H. apply clean_value_fixed; auto using
      clean_value_stripped, clean_value_no_terminator.
Qed.

(** ** The Field Matcher *)

Section Search.
Import Re.

Lemma scan_skip (ic : bool) (r : regex) (pre rest : str) :
  (forall n, n < length pre ->
             match_here ic r (skipn n (pre ++ rest)) = None) ->
  scan ic r (pre ++ rest) = scan ic r rest.
Proof.
  induction pre as [|c pre IH]; intros H; [reflexivity|].
  cbn [app scan].
  assert (H0 := H 0 ltac:(simpl; lia)). cbn [skipn app] in H0. rewrite H0.
  apply IH. intros n Hn. apply (H (S n)). simpl. lia.
Qed.

(** The search for a field starts at the first offset where its pattern
    matches. *)
Lemma find_field_value_skip (field_name pre rest : str) :
  unmatched_before field_name (pre ++ rest) (length pre) ->
  find_field_value (pre ++ rest) field_name = find_field_value rest field_name.
Proof.
  unfold unmatched_before, matches_at, find_field_value, search.
  destruct (compile _) as [[r k]| |]; intros H; try reflexivity.
  rewrite scan_skip; [reflexivity|].
  intros n Hn. specialize (H n Hn).
  destruct (match_here _ _ _); [discriminate | reflexivity].
Qed.

End Search.

Lemma currency_sample_here (post : str) :
  find_field_value (currency_sample ++ post) currency_field
  = Returns (Some ("1.234,56" : str)).
Proof. vm_compute. reflexivity. Qed.

(** C1, as stated, fails: the search returns the leftmost match, so an
    earlier occurrence of the label decides the value. *)
Lemma currency_sample_shadowed :
  find_field_value
    ("Valor Base para Fins : R$ 9,99 Base: x " ++ currency_sample)
    currency_field
  = Returns (Some ("9,99" : str))
  /\ find_field_value
       ("Valor Base para Fins : R$ 9,99 Base: x " ++ currency_sample)
       currency_field
     <> Returns (Some ("1.234,56" : str)).
Proof. split; vm_compute; [reflexivity | discriminate]. Qed.

(** C1, amended: in a text that contains the sample line, and in which the
    currency pattern matches at no earlier offset, the currency field is
    extracted as ["1.234,56"]: the marker ["R$"] is stripped and ["Base:"]
    and all that follows it is dropped. *)
Theorem currency_sample_extracted (pre post : str) :
  unmatched_before currency_field (pre ++ currency_sample ++ post) (length pre)
  ->
  find_field_value (pre ++ currency_sample ++ post) currency_field
  = Returns (Some ("1.234,56" : str)).
Proof.
  intros H. rewrite find_field_value_skip by exact H.
  apply currency_sample_here.
Qed.

Lemma currency_sample_extracted_witness :
  find_field_value
    ("Empresa: ACME Ltda " ++ currency_sample ++ " Total: R$ 2,00")
    currency_field
  = Returns (Some ("1.234,56" : str)).
Proof.
  apply (currency_sample_extracted "Empresa: ACME Ltda " " Total: R$ 2,00").
  intros n Hn.
  do 19 (destruct n as [|n]; [vm_compute; reflexivity|]).
  simpl in Hn. lia.
Defined.

(** *** How the matcher runs over a known stretch of text *)

Module MatchFacts.
Import Re.

Section Runs.
Variable ic : bool.

Lemma extend_nil (g : caps) : extend [] g = g.
Proof.
  destruct g as [o c]. unfold extend. cbn [opened closed]. f_equal.
  induction o as [|[i a] o IH]; [reflexivity|].
  cbn [map]. rewrite app_nil_r, IH. reflexivity.
Qed.

Lemma extend_extend (a b : str) (g : caps) :
  extend b (extend a g) = extend (a ++ b) g.
Proof.
  destruct g as [o c]. unfold extend. cbn [opened closed]. f_equal.
  rewrite map_map. apply map_ext. intros [i x]. rewrite app_assoc.
  reflexivity.
Qed.

Lemma extend_push (c : ascii) (run : str) (g : caps) :
  extend run (push c g) = extend (c :: run) g.
Proof. unfold push. apply extend_extend. Qed.

Lemma one_step (t : ctest) (k : cont) (c : ascii) (s : str) (g : caps) :
  test ic t c = true -> one ic t k (c :: s) g = k s (push c g).
Proof. intros H. simpl. rewrite H. reflexivity. Qed.

Lemma one_stops (t : ctest) (k : cont) (s : str) (g : caps) :
  stops ic t s -> one ic t k s g = None.
Proof. destruct s; simpl; [reflexivity|]. intros ->. reflexivity. Qed.

Lemma star_greedy_stops (t : ctest) (k : cont) (rest : str) (g : caps) :
  stops ic t rest -> star_greedy ic t k rest g = k rest g.
Proof. destruct rest; simpl; [reflexivity|]. intros ->. reflexivity. Qed.

(** A greedy star takes the whole run when the continuation accepts there. *)
Lemma star_greedy_run (t : ctest) (k : cont) (run rest : str) (g res : caps) :
  Forall (fun c => test ic t c = true) run ->
  stops ic t rest ->
  k rest (extend run g) = Some res ->
  star_greedy ic t k (run ++ rest) g = Some res.
Proof.
  intros Hrun Hstop. revert g.
  induction Hrun as [|c run Hc _ IH]; intros g Hk.
  - rewrite extend_nil in Hk. cbn [app].
    rewrite star_greedy_stops by exact Hstop. exact Hk.
  - cbn [app star_greedy]. rewrite Hc.
    rewrite (IH (push c g)); [reflexivity|].
    rewrite extend_push. exact Hk.
Qed.

Lemma same_char_refl (c : ascii) : same_char ic c c = true.
Proof. unfold same_char. destruct ic; apply Ascii.eqb_refl. Qed.

Lemma m_lits (f : str) (r : regex) (k : cont) (s : str) (g : caps) :
  m ic (lits f r) k (f ++ s) g = m ic r k s (extend f g).
Proof.
  revert g. induction f as [|c f IH]; intros g.
  - rewrite extend_nil. reflexivity.
  - cbn [lits fold_right app m one test]. rewrite same_char_refl.
    fold (lits f r). rewrite IH, extend_push. reflexivity.
Qed.

Lemma m_separators_then_group (sepset valset : ctest) (n : nat)
      (sep v post : str) (g : caps) :
  opened g = [] ->
  Forall (fun c => test ic sepset c = true) sep ->
  Forall (fun c => test ic valset c = true) v ->
  v <> [] -> stops ic sepset v -> stops ic valset post ->
  m ic (separators_then_group sepset valset n) accept (sep ++ v ++ post) g
  = Some (Caps [] ((n, v) :: closed g)).
Proof.
  intros Hg Hsep Hv Hne Hhead Hpost. unfold separators_then_group.
  destruct g as [o cl]. cbn [opened closed] in *. subst o.
  destruct v as [|d v']; [congruence|]. inversion Hv as [|? ? Hd Hv']; subst.
  cbn [m]. apply star_greedy_run; [exact Hsep | exact Hhead |].
  cbn [app]. rewrite one_step by exact Hd.
  apply star_greedy_run; [exact Hv' | exact Hpost | reflexivity].
Qed.

End Runs.

Ltac all_chars c :=
  destruct c as [[] [] [] [] [] [] [] []]; vm_compute; reflexivity.

Lemma separator_set_test (c : ascii) :
  test IGNORECASE separator_set c = ((c =? ":")%char || Py.isspace c).
Proof. all_chars c. Qed.

Lemma line_set_test (c : ascii) :
  test IGNORECASE line_set c = negb (c =? LF)%char.
Proof. all_chars c. Qed.

Lemma value_set_test (c : ascii) :
  test IGNORECASE value_set c
  = (Py.isdecimal c || (c =? ".")%char || (c =? "-")%char || (c =? "/")%char).
Proof. all_chars c. Qed.

End MatchFacts.

(** ** Two labels of the identifier field *)

Section PIS.
Import Re MatchFacts.

Lemma pis_compile :
  compile (dict_get patterns pis_field (generic_pattern pis_field))
  = Parsed (pis_regex, 2).
Proof. vm_compute. reflexivity. Qed.

Lemma value_char_not_separator (c : ascii) :
  is_value_char c = true -> is_separator c = false.
Proof.
  destruct c as [[] [] [] [] [] [] [] []]; vm_compute;
    intros H; solve [reflexivity | discriminate H].
Qed.

Lemma value_char_not_space (c : ascii) :
  is_value_char c = true -> Py.isspace c = false.
Proof.
  intros H. apply value_char_not_separator in H.
  unfold is_separator in H. apply orb_false_iff in H. tauto.
Qed.

Lemma separator_not_slash (c : ascii) :
  is_separator c = true -> same_char IGNORECASE "/" c = false.
Proof.
  destruct c as [[] [] [] [] [] [] [] []]; vm_compute;
    intros H; solve [reflexivity | discriminate H].
Qed.

Lemma other_not_slash (c : ascii) :
  (c =? "/")%char = false -> same_char IGNORECASE "/" c = false.
Proof.
  destruct c as [[] [] [] [] [] [] [] []]; vm_compute;
    intros H; solve [reflexivity | discriminate H].
Qed.

Lemma rstrip_nospace (v : str) :
  Forall (fun c => Py.isspace c = false) v -> Py.rstrip v = v.
Proof.
  induction 1 as [|c v Hc _ IH]; [reflexivity|].
  simpl. rewrite IH. destruct v; [rewrite Hc|]; reflexivity.
Qed.

Lemma strip_nospace (v : str) :
  Forall (fun c => Py.isspace c = false) v -> Py.strip v = v.
Proof.
  intros H. unfold Py.strip.
  replace (Py.lstrip v) with v; [apply rstrip_nospace, H|].
  destruct H as [|c v Hc _]; [reflexivity|]. simpl. rewrite Hc. reflexivity.
Qed.

(** After either label: the separators, then the value in group 2. *)
Lemma pis_after_label (sep v post : str) (g : caps) :
  opened g = [] ->
  Forall (fun c => is_separator c = true) sep ->
  Forall (fun c => is_value_char c = true) v -> v <> [] ->
  ends_value post ->
  m IGNORECASE pis_after_label_regex accept (sep ++ v ++ post) g
  = Some (Caps [] ((2, v) :: closed g)).
Proof.
  intros Hg Hsep Hv Hne Hpost. unfold pis_after_label_regex.
  apply m_separators_then_group; try assumption.
  - eapply Forall_impl; [exact Hsep|].
    intros c Hc. cbn beta. rewrite separator_set_test. exact Hc.
  - eapply Forall_impl; [exact Hv|].
    intros c Hc. cbn beta. rewrite value_set_test. exact Hc.
  - destruct v as [|d v']; [exact I|]. cbn [stops].
    rewrite separator_set_test. apply value_char_not_separator.
    inversion Hv; assumption.
  - destruct post as [|p post]; [exact I|]. cbn [stops].
    rewrite value_set_test. exact Hpost.
Qed.

Lemma scan_here (ic : bool) (r : regex) (s : str) (g : caps) :
  match_here ic r s = Some g -> scan ic r s = Some g.
Proof. intros H. destruct s; simpl; rewrite H; reflexivity. Qed.

Lemma pis_found (text v : str) (label : str) :
  match_here IGNORECASE pis_regex text = Some (Caps [] [(2, v); (1, label)]) ->
  Forall (fun c => is_value_char c = true) v ->
  find_field_value text pis_field = Returns (Some v).
Proof.
  intros H Hv. unfold find_field_value, search. rewrite pis_compile.
  rewrite (scan_here _ _ _ _ H). cbn [closed].
  change (str_eqb pis_field "PIS/PASEP/NIT" && (1 <? ngroups (Match [(2, v); (1, label)] 2)))
    with true.
  cbn match. cbv [group ngroups captured]. cbn [Nat.ltb Nat.leb assoc Nat.eqb].
  cbv [strip_group]. rewrite strip_nospace; [reflexivity|].
  eapply Forall_impl; [exact Hv|]. apply value_char_not_space.
Qed.

Lemma pis_long_label (sep v post : str) :
  Forall (fun c => is_separator c = true) sep ->
  Forall (fun c => is_value_char c = true) v -> v <> [] ->
  ends_value post ->
  find_field_value ("PIS/PASEP/NIT" ++ sep ++ v ++ post) pis_field
  = Returns (Some v).
Proof.
  intros Hsep Hv Hne Hpost. apply (pis_found _ _ "PIS/PASEP/NIT"); [|exact Hv].
  unfold match_here, pis_regex. cbn [m].
  rewrite m_lits. cbn [m].
  rewrite pis_after_label by (assumption || reflexivity). reflexivity.
Qed.

Lemma pis_short_label (sep v post : str) :
  Forall (fun c => is_separator c = true) sep ->
  Forall (fun c => is_value_char c = true) v -> v <> [] ->
  (forall v', v <> "/"%char :: v') ->
  ends_value post ->
  find_field_value ("PIS" ++ sep ++ v ++ post) pis_field = Returns (Some v).
Proof.
  intros Hsep Hv Hne Hslash Hpost. apply (pis_found _ _ "PIS"); [|exact Hv].
  unfold match_here, pis_regex. cbn [m].
  change (lits "PIS/PASEP/NIT" Empty)
    with (lits "PIS" (lits "/PASEP/NIT" Empty)).
  rewrite !m_lits.
  assert (F : m IGNORECASE (lits "/PASEP/NIT" Empty)
                (fun s' g' =>
                   m IGNORECASE pis_after_label_regex accept s'
                     (close_group g'))
                (sep ++ v ++ post) (extend "PIS" (open_group 1 no_caps))
              = None).
  { cbn [lits fold_right list_ascii_of_string m]. apply one_stops.
    destruct sep as [|c sep].
    - destruct v as [|d v']; [congruence|]. cbn [app stops test].
      apply other_not_slash. destruct (Ascii.eqb_spec d "/"); [|reflexivity].
      subst d. exfalso. exact (Hslash v' eq_refl).
    - cbn [app stops test]. apply separator_not_slash.
      inversion Hsep; assumption. }
  rewrite F. cbn [m].
  rewrite pis_after_label by (assumption || reflexivity). reflexivity.
Qed.

End PIS.

(** C7, as stated, fails: what follows the value in the text can extend the
    match, so two texts that both contain the labelled value [123] may
    yield different values. *)
Lemma pis_labels_disagree :
  find_field_value "PIS/PASEP/NIT: 123" pis_field
  <> find_field_value "PIS: 1234" pis_field.
Proof. vm_compute. discriminate. Qed.

(** C7, amended: take a value made of digits, [.], [-] and [/] that does not
    begin with [/], and two texts in which it stands after the label
    [PIS/PASEP/NIT] resp. [PIS] and some separators, is not continued by the
    next character, and is where the leftmost match of the pattern begins.
    Then the Field Matcher returns that value for both texts. *)
Theorem pis_labels_agree (pre1 pre2 sep1 sep2 v post1 post2 : str) :
  Forall (fun c => is_value_char c = true) v ->
  v <> [] -> (forall v', v <> "/"%char :: v') ->
  Forall (fun c => is_separator c = true) sep1 ->
  Forall (fun c => is_separator c = true) sep2 ->
  ends_value post1 -> ends_value post2 ->
  unmatched_before pis_field (pre1 ++ "PIS/PASEP/NIT" ++ sep1 ++ v ++ post1)
    (length pre1) ->
  unmatched_before pis_field (pre2 ++ "PIS" ++ sep2 ++ v ++ post2)
    (length pre2) ->
  find_field_value (pre1 ++ "PIS/PASEP/NIT" ++ sep1 ++ v ++ post1) pis_field
  = Returns (Some v)
  /\ find_field_value (pre2 ++ "PIS" ++ sep2 ++ v ++ post2) pis_field
     = Returns (Some v).
Proof.
  intros Hv Hne Hslash Hs1 Hs2 Hp1 Hp2 H1 H2. split.
  - rewrite find_field_value_skip by exact H1. now apply pis_long_label.
  - rewrite find_field_value_skip by exact H2. now apply pis_short_label.
Qed.

Lemma pis_labels_agree_witness :
  find_field_value "Nome: Ana PIS/PASEP/NIT: 123.45678.90-1 CTPS" pis_field
  = Returns (Some ("123.45678.90-1" : str))
  /\ find_field_value "Nome: Ana PIS 123.45678.90-1" pis_field
     = Returns (Some ("123.45678.90-1" : str)).
Proof.
  apply (pis_labels_agree "Nome: Ana " "Nome: Ana " ": " " "
           "123.45678.90-1" " CTPS" []).
  - repeat constructor.
  - discriminate.
  - discriminate.
  - repeat constructor.
  - repeat constructor.
  - reflexivity.
  - exact I.
  - intros n Hn.
    do 10 (destruct n as [|n]; [vm_compute; reflexivity|]).
    simpl in Hn. lia.
  - intros n Hn.
    do 10 (destruct n as [|n]; [vm_compute; reflexivity|]).
    simpl in Hn. lia.
Defined.

(** ** The fallback pattern for unknown fields *)

Section Fallback.
Import Re MatchFacts.

Lemma plain_not_repeat (c : ascii) : plain c = true -> is_repeat_char c = false.
Proof.
  destruct c as [[] [] [] [] [] [] [] []]; vm_compute;
    intros H; solve [reflexivity | discriminate H].
Qed.

Lemma parse_seq_plain_char (c : ascii) (s : str) (fuel n : nat) :
  plain c = true -> next_not_repeat s ->
  parse_seq (S fuel) (c :: s) n
  = match parse_seq fuel s n with
    | Parsed (more, rest, n') => Parsed (Seq (Char (TLit c)) more, rest, n')
    | Error => Error
    | Unsupported => Unsupported
    end.
Proof.
  intros Hc Hs. pose proof (plain_not_repeat c Hc) as Hr.
  unfold plain, special_chars in Hc. apply negb_true_iff in Hc.
  cbn [existsb app list_ascii_of_string] in Hc.
  repeat (apply orb_false_elim in Hc as [? Hc]).
  cbn [parse_seq].
  repeat match goal with
         | E : (c =? _)%char = false |- _ => rewrite E; clear E
         end.
  rewrite Hr. cbn [orb].
  assert (Q : quantify (AChar (TLit c)) s = Parsed (Char (TLit c), s)).
  { destruct s as [|x s]; [reflexivity|]. cbn [next_not_repeat] in Hs.
    cbn [quantify]. rewrite Hs. reflexivity. }
  rewrite Q.
  destruct (parse_seq fuel s n) as [[[more rest] n']| |]; reflexivity.
Qed.

Lemma parse_seq_plain (f tail : str) (fuel n : nat) :
  Forall (fun c => plain c = true) f -> next_not_repeat tail ->
  parse_seq (length f + fuel) (f ++ tail) n
  = match parse_seq fuel tail n with
    | Parsed (r, rest, n') => Parsed (lits f r, rest, n')
    | Error => Error
    | Unsupported => Unsupported
    end.
Proof.
  intros Hf Ht. induction Hf as [|c f Hc Hf IH].
  - cbn [length Nat.add app lits fold_right].
    destruct (parse_seq fuel tail n) as [[[r rest] n']| |]; reflexivity.
  - cbn [length Nat.add app]. rewrite parse_seq_plain_char.
    + rewrite IH.
      destruct (parse_seq fuel tail n) as [[[r rest] n']| |]; reflexivity.
    + exact Hc.
    + destruct Hf as [|x f Hx _]; [exact Ht|].
      cbn [app next_not_repeat]. apply plain_not_repeat, Hx.
Qed.

Lemma parse_generic_tail (k : nat) :
  parse_seq (27 + k) generic_tail 0 = Parsed (generic_tail_regex, [], 1).
Proof. vm_compute. reflexivity. Qed.

(** A field name of plain characters compiles to those characters
    followed by the generic tail. *)
Lemma compile_generic (f : str) :
  Forall (fun c => plain c = true) f ->
  compile (generic_pattern f) = Parsed (lits f generic_tail_regex, 1).
Proof.
  intros Hf. unfold compile.
  change (generic_pattern f) with (f ++ generic_tail).
  rewrite length_app. change (length generic_tail) with 13.
  replace (2 * (length f + 13) + 2) with (S (length f + (27 + length f)))
    by lia.
  cbn [parse_alts]. rewrite parse_seq_plain by (exact Hf || reflexivity).
  rewrite parse_generic_tail. reflexivity.
Qed.

Lemma dict_get_unknown (d : list (str * str)) (key default : str) :
  ~ In key (map fst d) -> dict_get d key default = default.
Proof.
  induction d as [|[k v] d IH]; intros H; [reflexivity|].
  cbn [dict_get]. unfold str_eqb. rewrite bool_decide_eq_false_2.
  - apply IH. intros Hin. apply H. right. exact Hin.
  - intros ->. apply H. left. reflexivity.
Qed.

(** For a field the table does not know, the search uses the generic
    pattern and the value is group 1, stripped and cleaned. *)
Lemma unknown_field_uses_generic (text field_name : str) :
  ~ known_field field_name ->
  find_field_value text field_name
  = match search (generic_pattern field_name) text IGNORECASE with
    | Error => Raises re_error
    | Unsupported => Unmodelled
    | Parsed None => Returns None
    | Parsed (Some mo) =>
        match strip_group (group mo 1) with
        | Returns v => Returns (Some (clean_value v))
        | Raises e => Raises e
        | Unmodelled => Unmodelled
        end
    end.
Proof.
  intros H. unfold find_field_value.
  rewrite dict_get_unknown by exact H.
  assert (E : str_eqb field_name "PIS/PASEP/NIT" = false).
  { unfold str_eqb. apply bool_decide_eq_false_2. intros ->. apply H.
    right. right. left. reflexivity. }
  rewrite E. reflexivity.
Qed.

Lemma fallback_here (field_name sep line post : str) :
  ~ known_field field_name ->
  Forall (fun c => plain c = true) field_name ->
  Forall (fun c => is_separator c = true) sep ->
  Forall (fun c => (c =? LF)%char = false) line ->
  line <> [] ->
  (forall c rest, line = c :: rest -> is_separator c = false) ->
  ends_line post ->
  find_field_value (field_name ++ sep ++ line ++ post) field_name
  = Returns (Some (clean_value (Py.strip line))).
Proof.
  intros Hk Hf Hsep Hline Hne Hhead Hpost.
  rewrite unknown_field_uses_generic by exact Hk.
  unfold search. rewrite compile_generic by exact Hf.
  assert (M : match_here IGNORECASE (lits field_name generic_tail_regex)
                (field_name ++ sep ++ line ++ post)
              = Some (Caps [] [(1, line)])).
  { unfold match_here. rewrite m_lits. unfold generic_tail_regex.
    apply m_separators_then_group; try assumption.
    - reflexivity.
    - eapply Forall_impl; [exact Hsep|].
      intros c Hc. cbn beta. rewrite separator_set_test. exact Hc.
    - eapply Forall_impl; [exact Hline|].
      intros c Hc. cbn beta. rewrite line_set_test, Hc. reflexivity.
    - destruct line as [|c rest]; [exact I|]. cbn [stops].
      rewrite separator_set_test. exact (Hhead c rest eq_refl).
    - destruct post as [|c post]; [exact I|]. cbn [stops ends_line] in *.
      subst c. reflexivity. }
  rewrite (scan_here _ _ _ _ M). reflexivity.
Qed.

End Fallback.

(** C6, as stated, fails: the group captures up to the end of the line, so
    a text that contains ["CustomField: XYZ"] followed by more characters
    on the same line yields more than ["XYZ"]. *)
Lemma custom_field_longer_line :
  find_field_value "CustomField: XYZ-123" "CustomField"
  = Returns (Some ("XYZ-123" : str))
  /\ find_field_value "CustomField: XYZ-123" "CustomField"
     <> Returns (Some ("XYZ" : str)).
Proof. split; vm_compute; [reflexivity | discriminate]. Qed.

(** C6, amended: for a field name that is not in the pattern table and is
    made of characters without a meaning in a pattern, in a text where the
    name is followed by a run of separators ([:] or white space) and then
    by a non-empty line that ends with the text or at a line feed, and in
    which the pattern matches at no earlier offset, the Field Matcher
    returns that line, stripped and cleaned.  For ["CustomField: XYZ"]
    this is ["XYZ"]. *)
Theorem fallback_extracts_line (field_name pre sep line post : str) :
  ~ known_field field_name ->
  Forall (fun c => plain c = true) field_name ->
  Forall (fun c => is_separator c = true) sep ->
  Forall (fun c => (c =? Re.LF)%char = false) line ->
  line <> [] ->
  (forall c rest, line = c :: rest -> is_separator c = false) ->
  ends_line post ->
  unmatched_before field_name (pre ++ field_name ++ sep ++ line ++ post)
    (length pre) ->
  find_field_value (pre ++ field_name ++ sep ++ line ++ post) field_name
  = Returns (Some (clean_value (Py.strip line))).
Proof.
  intros Hk Hf Hsep Hline Hne Hhead Hpost Hpre.
  rewrite find_field_value_skip by exact Hpre.
  now apply fallback_here.
Qed.

Lemma fallback_extracts_line_witness :
  find_field_value ("Doc 7" ++ [Re.LF] ++ "CustomField: XYZ" ++ [Re.LF] ++ "fin")
    "CustomField"
  = Returns (Some ("XYZ" : str)).
Proof.
  apply (fallback_extracts_line "CustomField" ("Doc 7" ++ [Re.LF]) ": " "XYZ"
           ([Re.LF] ++ "fin")).
  - unfold known_field. cbn. intros [H|[H|[H|[]]]]; discriminate H.
  - repeat constructor.
  - repeat constructor.
  - repeat constructor.
  - discriminate.
  - intros c rest H. injection H as <- _. reflexivity.
  - reflexivity.
  - intros n Hn.
    do 6 (destruct n as [|n]; [vm_compute; reflexivity|]).
    simpl in Hn. lia.
Defined.

(** The default configuration names the currency field
    ["Valor Base para Fins"], which is not a key of the table: the sample
    line is then read by the fallback, with the same result. *)
Lemma currency_sample_by_fallback (post : str) :
  ends_line post ->
  find_field_value (currency_sample ++ post) "Valor Base para Fins"
  = Returns (Some ("1.234,56" : str)).
Proof.
  intros Hpost.
  change (currency_sample ++ post)
    with (("Valor Base para Fins" : str) ++ (" : " : str)
          ++ ("R$ 1.234,56 Base: R$ 1.000,00" : str) ++ post).
  rewrite fallback_here; [reflexivity | | | | | | | exact Hpost].
  - unfold known_field. cbn. intros [H|[H|[H|[]]]]; discriminate H.
  - repeat constructor.
  - repeat constructor.
  - repeat constructor.
  - discriminate.
  - intros c rest H. injection H as <- _. reflexivity.
Qed.

(** ** Field names that are not valid patterns *)

(** C3: the field name reaches [re.search] unescaped.  For the field name
    ["("] the pattern does not compile and the call raises [re.error],
    whatever the text. *)
Theorem field_name_paren_raises (text : str) :
  find_field_value text "(" = Raises re_error.
Proof. vm_compute. reflexivity. Qed.

(** With an alternation in the field name the match can leave group 1
    unset, and [None.strip()] raises. *)
Lemma field_name_alternation_raises :
  find_field_value "a" "a|b" = Raises AttributeError.
Proof. vm_compute. reflexivity. Qed.

(** *** The fields of the table never raise

    The defect is confined to the fallback: the three patterns of the
    table compile, and the group they read is closed in every match. *)

Section SureGroups.
Import Re.
Variable ic : bool.

Lemma keeps_refl (g : caps) : keeps g g.
Proof. split; auto. Qed.

Lemma keeps_trans (g1 g2 g3 : caps) : keeps g1 g2 -> keeps g2 g3 -> keeps g1 g3.
Proof. intros [O1 C1] [O2 C2]. split; [congruence | auto]. Qed.

Lemma keeps_push (c : ascii) (g : caps) : keeps g (push c g).
Proof.
  split; [|auto]. unfold push, extend. cbn [opened].
  rewrite map_map. apply map_ext. intros [i a]. reflexivity.
Qed.

Lemma one_reaches (t : ctest) (k : cont) (s : str) (g res : caps) :
  one ic t k s g = Some res ->
  exists s' g', k s' g' = Some res /\ keeps g g'.
Proof.
  destruct s as [|c s]; [discriminate|]. cbn [one].
  destruct (test ic t c); [|discriminate].
  intros H. eauto using keeps_push.
Qed.

Lemma star_greedy_reaches (t : ctest) (k : cont) (s : str) (g res : caps) :
  star_greedy ic t k s g = Some res ->
  exists s' g', k s' g' = Some res /\ keeps g g'.
Proof.
  revert g. induction s as [|c s IH]; intros g; cbn [star_greedy].
  - eauto using keeps_refl.
  - destruct (test ic t c); [|eauto using keeps_refl].
    destruct (star_greedy ic t k s (push c g)) as [r|] eqn:E.
    + intros [= ->]. destruct (IH _ E) as (s' & g' & Hk & K).
      eauto using keeps_trans, keeps_push.
    + eauto using keeps_refl.
Qed.

Lemma star_lazy_reaches (t : ctest) (k : cont) (s : str) (g res : caps) :
  star_lazy ic t k s g = Some res ->
  exists s' g', k s' g' = Some res /\ keeps g g'.
Proof.
  revert g. induction s as [|c s IH]; intros g; cbn [star_lazy].
  - destruct (k [] g) eqn:E; [|discriminate].
    intros [= ->]. eauto using keeps_refl.
  - destruct (k (c :: s) g) eqn:E.
    + intros [= ->]. eauto using keeps_refl.
    + destruct (test ic t c); [|discriminate].
      intros H. destruct (IH _ H) as (s' & g' & Hk & K).
      eauto using keeps_trans, keeps_push.
Qed.

(** A match of [r] hands to its continuation a state in which the sure
    groups of [r] are closed. *)
Lemma m_reaches (r : regex) (k : cont) (s : str) (g res : caps) :
  m ic r k s g = Some res ->
  exists s' g',
    k s' g' = Some res /\ keeps g g'
    /\ forall n, In n (sure_groups r) -> is_Some (assoc n (closed g')).
Proof.
  revert k s g.
  induction r as [|t|t gr|t gr|a IHa b IHb|a IHa b IHb|n a IHa|];
    intros k s g H; cbn [m sure_groups] in *.
  - exists s, g. split; [exact H|]. split; [apply keeps_refl | intros ? []].
  - destruct (one_reaches _ _ _ _ _ H) as (s' & g' & Hk & K).
    exists s', g'. split; [exact Hk|]. split; [exact K | intros ? []].
  - assert (E : exists s' g', k s' g' = Some res /\ keeps g g').
    { destruct gr; eauto using star_greedy_reaches, star_lazy_reaches. }
    destruct E as (s' & g' & Hk & K).
    exists s', g'. split; [exact Hk|]. split; [exact K | intros ? []].
  - assert (E : exists s' g', k s' g' = Some res /\ keeps g g').
    { destruct gr.
      - destruct (one ic t k s g) eqn:E.
        + injection H as ->. eauto using one_reaches.
        + eauto using keeps_refl.
      - destruct (k s g) eqn:E.
        + injection H as ->. eauto using keeps_refl.
        + eauto using one_reaches. }
    destruct E as (s' & g' & Hk & K).
    exists s', g'. split; [exact Hk|]. split; [exact K | intros ? []].
  - apply IHa in H as (s1 & g1 & H & K1 & S1).
    apply IHb in H as (s2 & g2 & H & K2 & S2).
    exists s2, g2. split; [exact H|]. split; [eauto using keeps_trans|].
    intros n Hn. apply in_app_or in Hn as [Hn|Hn]; [|auto].
    apply K2, S1, Hn.
  - destruct (m ic a k s g) eqn:E.
    + injection H as ->. apply IHa in E as (s' & g' & Hk & K & _).
      exists s', g'. split; [exact Hk|]. split; [exact K | intros ? []].
    + apply IHb in H as (s' & g' & Hk & K & _).
      exists s', g'. split; [exact Hk|]. split; [exact K | intros ? []].
  - apply IHa in H as (s' & g' & Hk & [Ko Kc] & Sa).
    exists s', (close_group g'). split; [exact Hk|].
    cbn [open_group opened closed map fst] in Ko, Kc.
    destruct g' as [[|[n' x] o] cl]; cbn [opened map fst] in Ko;
      [discriminate|]. injection Ko as -> Ko.
    assert (Keep : forall i, is_Some (assoc i cl) ->
                             is_Some (assoc i ((n, x) :: cl))).
    { intros i Hi. cbn [assoc]. destruct (i =? n); [eauto | exact Hi]. }
    cbn [close_group opened closed] in *. split; [split|].
    + exact Ko.
    + intros i Hi. apply Keep, Kc, Hi.
    + intros i [<-|Hi].
      * cbn [assoc]. rewrite Nat.eqb_refl. eauto.
      * apply Keep, Sa, Hi.
  - destruct (at_end s); [|discriminate].
    exists s, g. split; [exact H|]. split; [apply keeps_refl | intros ? []].
Qed.

Lemma scan_sure_groups (r : regex) (s : str) (res : caps) (n : nat) :
  scan ic r s = Some res -> In n (sure_groups r) ->
  is_Some (assoc n (closed res)).
Proof.
  intros H Hn.
  assert (M : exists s', match_here ic r s' = Some res).
  { induction s as [|c s IH]; cbn [scan] in H.
    - destruct (match_here ic r []) eqn:E; [|discriminate].
      injection H as ->. eauto.
    - destruct (match_here ic r (c :: s)) eqn:E; [|exact (IH H)].
      injection H as ->. eauto. }
  destruct M as [s' M]. unfold match_here in M.
  apply m_reaches in M as (s1 & g1 & A & _ & S).
  unfold accept in A. injection A as <-. apply S, Hn.
Qed.

End SureGroups.

(** A search whose pattern compiles and surely closes the group that is
    read returns a value or [None]. *)
Lemma sure_group_returns (text field_name : str) (r : Re.regex) (k i : nat) :
  Re.compile (dict_get patterns field_name (generic_pattern field_name))
  = Re.Parsed (r, k) ->
  i = (if str_eqb field_name "PIS/PASEP/NIT" && (1 <? k) then 2 else 1) ->
  i <= k -> In i (Re.sure_groups r) ->
  exists value, find_field_value text field_name = Returns value.
Proof.
  intros Hc Hi Hk Hs. unfold find_field_value, Re.search. rewrite Hc.
  destruct (Re.scan Re.IGNORECASE r text) as [g|] eqn:E; [|eauto].
  destruct (scan_sure_groups _ _ _ _ _ E Hs) as [v Hv].
  cbn [Re.ngroups Re.captured]. unfold group. cbn [Re.ngroups Re.captured].
  destruct (str_eqb field_name "PIS/PASEP/NIT" && (1 <? k)); subst i;
    (replace (k <? _) with false by (symmetry; apply Nat.ltb_ge; exact Hk));
    rewrite Hv; cbn [strip_group]; eauto.
Qed.

(** For the fields of the pattern table the Field Matcher returns a string
    or [None], whatever the text. *)
Theorem known_fields_never_raise (text field_name : str) :
  known_field field_name ->
  exists value, find_field_value text field_name = Returns value.
Proof.
  unfold known_field. cbn [map fst patterns In].
  intros [<-|[<-|[<-|[]]]].
  - eapply sure_group_returns;
      [vm_compute; reflexivity | vm_compute; reflexivity | lia
       | vm_compute; tauto].
  - eapply sure_group_returns;
      [vm_compute; reflexivity | vm_compute; reflexivity | lia
       | vm_compute; tauto].
  - eapply sure_group_returns;
      [vm_compute; reflexivity | vm_compute; reflexivity | lia
       | vm_compute; tauto].
Qed.

(** ** The Batch Aggregator *)

Section MonadFacts.

Lemma bind_returns {A B : Type} (c : prog A) (k : A -> prog B)
      (w w' : world) (b : B) :
  (c ≫= k) w = (Returns b, w') ->
  exists a w1, c w = (Returns a, w1) /\ k a w1 = (Returns b, w').
Proof.
  unfold mbind, prog_bind, bind.
  destruct (c w) as [[a| |] w1]; intros H; try discriminate H. eauto.
Qed.

Lemma logging_returns (l : level) (msg : str) (w w' : world) (u : unit) :
  logging l msg w = (Returns u, w') ->
  w' = World (logged w ++ [(l, msg)]) (files w).
Proof. unfold logging. intros H. injection H as _ <-. reflexivity. Qed.

Lemma ret_returns {A : Type} (a b : A) (w w' : world) :
  ret a w = (Returns b, w') -> a = b /\ w = w'.
Proof. unfold ret. intros H. injection H as -> ->. auto. Qed.

End MonadFacts.

Lemma grows_refl (w : world) : grows w w.
Proof. split; [reflexivity|]. exists []. rewrite app_nil_r. reflexivity. Qed.

Lemma grows_trans (w1 w2 w3 : world) : grows w1 w2 -> grows w2 w3 -> grows w1 w3.
Proof.
  intros [F1 [l1 L1]] [F2 [l2 L2]]. split; [congruence|].
  exists (l1 ++ l2). rewrite L2, L1, app_assoc. reflexivity.
Qed.

Lemma grows_logging (l : level) (msg : str) (w : world) :
  grows w (World (logged w ++ [(l, msg)]) (files w)).
Proof. split; [reflexivity|]. eauto. Qed.

Lemma grows_logged (w w' : world) (e : level * str) :
  grows w w' -> e ∈ logged w -> e ∈ logged w'.
Proof. intros [_ [l ->]] H. apply elem_of_app. left. exact H. Qed.

Lemma field_loop_body_returns (text field : str) (rec r : record_t)
      (w w' : world) :
  field_loop_body text field rec w = (Returns r, w') ->
  exists value,
    find_field_value text field = Returns value
    /\ r = <[field := or_not_found value]> rec
    /\ grows w w'.
Proof.
  unfold field_loop_body. intros H.
  apply bind_returns in H as (value & w1 & H1 & H).
  unfold lift in H1. injection H1 as H1 <-.
  apply bind_returns in H as (u & w2 & H2 & H).
  apply logging_returns in H2. apply ret_returns in H as [<- <-].
  exists value. subst w2. auto using grows_logging.
Qed.

Lemma field_loop_returns (text : str) (fields : list str) (rec r : record_t)
      (w w' : world) :
  for_each fields (field_loop_body text) rec w = (Returns r, w') ->
  dom r = dom rec ∪ list_to_set fields
  /\ (forall field, field ∈ fields ->
        exists value, find_field_value text field = Returns value
                      /\ r !! field = Some (or_not_found value))
  /\ (forall k, k ∉ fields -> r !! k = rec !! k)
  /\ grows w w'.
Proof.
  revert rec w. induction fields as [|f fields IH]; intros rec w H.
  - apply ret_returns in H as [<- <-].
    split; [set_solver|]. split; [|split; [reflexivity | apply grows_refl]].
    intros field Hin. inversion Hin.
  - cbn [for_each] in H. apply bind_returns in H as (rec1 & w1 & H1 & H).
    apply field_loop_body_returns in H1 as (value & Hv & -> & G1).
    apply IH in H as (Hdom & Hval & Hother & G2).
    split; [|split; [|split]].
    + rewrite Hdom, dom_insert_L. set_solver.
    + intros field Hin. destruct (decide (field ∈ fields)) as [Hf|Hf].
      * apply Hval, Hf.
      * apply elem_of_cons in Hin as [->|Hin]; [|contradiction].
        exists value. split; [exact Hv|].
        rewrite Hother by exact Hf. apply lookup_insert_eq.
    + intros k Hk. apply not_elem_of_cons in Hk as [Hne Hk].
      rewrite Hother by exact Hk. apply lookup_insert_ne. congruence.
    + eapply grows_trans; eassumption.
Qed.

Section Aggregator.

Variable path_exists : str -> bool.
Variable listdir : str -> list str.
Variable path_join : str -> str -> str.
Variable pdf_open : str -> attempt (list (attempt str)).

Local Abbreviation process := (process_pdfs path_exists listdir path_join pdf_open).
Local Abbreviation text_of := (document_text path_join pdf_open).
Local Abbreviation is_record_of := (record_of path_join pdf_open).
Local Abbreviation failure_entry := (read_failure path_join).

Lemma extract_text_returns (config : Config) (pdf_file : str) (w : world) :
  exists w',
    extract_text_from_pdf pdf_open (path_join (source_folder config) pdf_file) w
    = (Returns (text_of config pdf_file), w')
    /\ grows w w'
    /\ (forall message,
          read_pdf pdf_open (path_join (source_folder config) pdf_file)
          = Failed message ->
          failure_entry config pdf_file message ∈ logged w').
Proof.
  unfold extract_text_from_pdf, document_text.
  destruct (read_pdf _ _) as [text|message].
  - exists w. split; [reflexivity|]. split; [apply grows_refl|]. discriminate.
  - eexists. split; [reflexivity|]. split; [apply grows_logging|].
    intros m [= <-]. cbn [logged]. apply elem_of_app. right.
    apply list_elem_of_singleton. reflexivity.
Qed.

(** One document: skipped when its text is empty, else one Record more. *)
Lemma pdf_loop_body_returns (config : Config) (pdf_file : str)
      (results results' : list record_t) (w w' : world) :
  pdf_loop_body path_join pdf_open (source_folder config)
    (fields_to_extract config) pdf_file results w = (Returns results', w') ->
  grows w w'
  /\ (forall message,
        read_pdf pdf_open (path_join (source_folder config) pdf_file)
        = Failed message ->
        failure_entry config pdf_file message ∈ logged w')
  /\ if decide (text_of config pdf_file <> [])
     then exists r, results' = results ++ [r] /\ is_record_of config pdf_file r
     else results' = results.
Proof.
  unfold pdf_loop_body. intros H.
  apply bind_returns in H as (u & w1 & H1 & H). apply logging_returns in H1.
  apply bind_returns in H as (text & w2 & H2 & H).
  destruct (extract_text_returns config pdf_file w1) as (w2' & E & G & F).
  rewrite E in H2. injection H2 as <- <-.
  assert (G1 : grows w w2').
  { eapply grows_trans; [|exact G]. subst w1. apply grows_logging. }
  destruct (text_of config pdf_file) as [|c text] eqn:T.
  - apply ret_returns in H as [<- <-].
    destruct (decide _) as [N|_]; [exfalso; apply N; reflexivity|]. auto.
  - apply bind_returns in H as (r & w3 & H3 & H).
    apply ret_returns in H as [<- <-].
    apply field_loop_returns in H3 as (Hdom & Hval & Hother & G3).
    split; [eapply grows_trans; eassumption|].
    split; [intros m Hm; eapply grows_logged; eauto|].
    destruct (decide _) as [_|N]; [|exfalso; apply N; discriminate].
    exists r. split; [reflexivity|]. unfold record_of. rewrite T.
    split; [|split].
    + rewrite Hdom, dom_singleton_L. reflexivity.
    + exact Hval.
    + intros Hk. rewrite Hother by exact Hk. apply lookup_singleton_eq.
Qed.

Lemma pdf_loop_returns (config : Config) (docs : list str)
      (results results' : list record_t) (w w' : world) :
  for_each docs
    (pdf_loop_body path_join pdf_open (source_folder config)
       (fields_to_extract config)) results w = (Returns results', w') ->
  grows w w'
  /\ (forall pdf_file message,
        pdf_file ∈ docs ->
        read_pdf pdf_open (path_join (source_folder config) pdf_file)
        = Failed message ->
        failure_entry config pdf_file message ∈ logged w')
  /\ exists recs,
       results' = results ++ recs
       /\ Forall2 (is_record_of config)
            (filter (fun f => text_of config f <> []) docs) recs.
Proof.
  revert results w. induction docs as [|d docs IH]; intros results w H.
  - apply ret_returns in H as [<- <-].
    split; [apply grows_refl|]. split; [intros ? ? Hin; inversion Hin|].
    exists []. rewrite app_nil_r. split; [reflexivity | constructor].
  - cbn [for_each] in H. apply bind_returns in H as (res1 & w1 & H1 & H).
    apply pdf_loop_body_returns in H1 as (G1 & F1 & R1).
    apply IH in H as (G2 & F2 & recs & -> & R2).
    split; [eapply grows_trans; eassumption|]. split.
    + intros f m Hin Hm. apply elem_of_cons in Hin as [->|Hin].
      * eapply grows_logged; eauto.
      * eauto.
    + rewrite filter_cons. destruct (decide (text_of config d <> [])) as [N|N].
      * destruct R1 as (r & -> & Hr). exists (r :: recs).
        rewrite <- app_assoc. split; [reflexivity|]. constructor; assumption.
      * subst res1. exists recs. split; [reflexivity | assumption].
Qed.

(** What a run of [process_pdfs] that returns has done: the result set holds
    one Record per surviving document, in order; every failed read is in
    the log; no file was written. *)
Lemma process_pdfs_returns (config : Config) (results : list record_t)
      (w w' : world) :
  process config w = (Returns results, w') ->
  grows w w'
  /\ Forall2 (is_record_of config)
       (surviving_documents path_exists listdir path_join pdf_open config)
       results
  /\ (forall pdf_file message,
        pdf_file ∈ input_documents path_exists listdir config ->
        read_pdf pdf_open (path_join (source_folder config) pdf_file)
        = Failed message ->
        failure_entry config pdf_file message ∈ logged w').
Proof.
  unfold process_pdfs, surviving_documents, input_documents.
  destruct (path_exists (source_folder config)); cbn [negb].
  - set (docs := filter _ (listdir (source_folder config))).
    intros H.
    assert (L : for_each docs
                  (pdf_loop_body path_join pdf_open (source_folder config)
                     (fields_to_extract config)) [] w = (Returns results, w')
                \/ docs = [] /\ results = [] /\ grows w w').
    { destruct docs as [|d docs'] eqn:E; [right | left; exact H].
      apply bind_returns in H as (u & w1 & H1 & H).
      apply logging_returns in H1. apply ret_returns in H as [<- <-].
      subst w1. auto using grows_logging. }
    destruct L as [L | (-> & -> & G)].
    + apply pdf_loop_returns in L as (G & F & recs & -> & R). auto.
    + split; [exact G|]. split; [constructor|].
      intros ? ? Hin. inversion Hin.
  - intros H. apply bind_returns in H as (u & w1 & H1 & H).
    apply logging_returns in H1. apply ret_returns in H as [<- <-].
    subst w1. split; [apply grows_logging|]. split; [constructor|].
    intros ? ? Hin. inversion Hin.
Qed.

End Aggregator.

Lemma sample_run_returns : sample_run = (Returns sample_results, snd sample_run).
Proof. vm_compute. reflexivity. Qed.

Section AggregatorProperties.

Variable path_exists : str -> bool.
Variable listdir : str -> list str.
Variable path_join : str -> str -> str.
Variable pdf_open : str -> attempt (list (attempt str)).

Local Abbreviation process :=
  (process_pdfs path_exists listdir path_join pdf_open).
Local Abbreviation text_of := (document_text path_join pdf_open).
Local Abbreviation documents := (input_documents path_exists listdir).
Local Abbreviation survivors :=
  (surviving_documents path_exists listdir path_join pdf_open).

Lemma record_has_document (config : Config) (results : list record_t)
      (w w' : world) (r : record_t) :
  process config w = (Returns results, w') -> r ∈ results ->
  exists pdf_file,
    pdf_file ∈ documents config
    /\ record_of path_join pdf_open config pdf_file r.
Proof.
  intros H Hr. apply process_pdfs_returns in H as (_ & R & _).
  apply list_elem_of_lookup in Hr as [i Hi].
  destruct (Forall2_lookup_r _ _ _ _ _ R Hi) as (f & Hf & Hrec).
  exists f. split; [|exact Hrec].
  apply list_elem_of_lookup_2 in Hf. unfold surviving_documents in Hf.
  apply list_elem_of_filter in Hf as [_ Hf]. exact Hf.
Qed.

(** C4: every Record of the result set has exactly the identifier column
    and one column per configured field, whatever was found in the
    document; a field without a match is stored as the placeholder. *)
Theorem records_are_rectangular (config : Config) (results : list record_t)
        (w w' : world) :
  process config w = (Returns results, w') ->
  forall r, r ∈ results ->
    dom r = {[ ("Archivo" : str) ]} ∪ list_to_set (fields_to_extract config)
    /\ exists pdf_file,
         pdf_file ∈ documents config
         /\ forall field,
              field ∈ fields_to_extract config ->
              find_field_value (text_of config pdf_file) field = Returns None ->
              r !! field = Some ("No encontrado" : str).
Proof.
  intros H r Hr.
  destruct (record_has_document _ _ _ _ _ H Hr) as (f & Hf & Hdom & Hval & _).
  split; [exact Hdom|]. exists f. split; [exact Hf|].
  intros field Hin Hnone. destruct (Hval field Hin) as (value & Hv & Hlook).
  rewrite Hnone in Hv. injection Hv as <-. exact Hlook.
Qed.

(** C5, amended: a run that returns has built one Record per document whose
    text is not empty, in the order of the documents, and has logged an
    error for every document whose reading failed.  (A document that is
    read without a failure but has no text is skipped without a message of
    its own.) *)
Theorem unreadable_documents_are_skipped (config : Config)
        (results : list record_t) (w w' : world) :
  process config w = (Returns results, w') ->
  Forall2 (record_of path_join pdf_open config) (survivors config) results
  /\ length results = length (survivors config)
  /\ forall pdf_file message,
       pdf_file ∈ documents config ->
       read_pdf pdf_open (path_join (source_folder config) pdf_file)
       = Failed message ->
       read_failure path_join config pdf_file message ∈ logged w'.
Proof.
  intros H. apply process_pdfs_returns in H as (_ & R & F).
  split; [exact R|]. split; [|exact F].
  symmetry. exact (Forall2_length _ _ _ R).
Qed.

(** C9, amended: the Record stores the placeholder both when the Field
    Matcher finds no match and when it finds an empty value; a non-empty
    value is stored as it is. *)
Theorem placeholder_for_missing_or_empty (config : Config)
        (results : list record_t) (w w' : world) :
  process config w = (Returns results, w') ->
  forall r, r ∈ results ->
    exists pdf_file,
      pdf_file ∈ documents config
      /\ forall field,
           field ∈ fields_to_extract config ->
           exists value,
             find_field_value (text_of config pdf_file) field = Returns value
             /\ match value with
                | None | Some [] => r !! field = Some ("No encontrado" : str)
                | Some v => r !! field = Some v
                end.
Proof.
  intros H r Hr.
  destruct (record_has_document _ _ _ _ _ H Hr) as (f & Hf & _ & Hval & _).
  exists f. split; [exact Hf|]. intros field Hin.
  destruct (Hval field Hin) as (value & Hv & Hlook).
  exists value. split; [exact Hv|].
  destruct value as [[|c v]|]; exact Hlook.
Qed.

End AggregatorProperties.

Lemma records_are_rectangular_witness :
  Forall
    (fun r : record_t =>
       dom r = {[ ("Archivo" : str) ]}
               ∪ list_to_set (fields_to_extract sample_config)
       /\ exists pdf_file,
            pdf_file ∈ input_documents (fun _ => true) sample_listdir
                         sample_config
            /\ forall field,
                 field ∈ fields_to_extract sample_config ->
                 find_field_value
                   (document_text sample_join sample_open sample_config
                      pdf_file)
                   field = Returns None ->
                 r !! field = Some ("No encontrado" : str))
    sample_results.
Proof.
  apply Forall_forall.
  apply (records_are_rectangular (fun _ => true) sample_listdir sample_join
           sample_open sample_config sample_results empty_world
           (snd sample_run)).
  vm_compute. reflexivity.
Defined.

Lemma unreadable_documents_are_skipped_witness :
  length sample_results = 2
  /\ (ERROR, "Error al leer el archivo in/b.pdf: EOF marker not found" : str)
     ∈ logged (snd sample_run).
Proof.
  destruct (unreadable_documents_are_skipped (fun _ => true) sample_listdir
              sample_join sample_open sample_config sample_results
              empty_world (snd sample_run)) as (_ & L & F).
  - vm_compute. reflexivity.
  - split.
    + rewrite L. vm_compute. reflexivity.
    + apply (F "b.pdf" "EOF marker not found").
      * vm_compute. apply list_elem_of_In. cbn. tauto.
      * vm_compute. reflexivity.
Defined.

Lemma placeholder_for_missing_or_empty_witness :
  Forall
    (fun r : record_t =>
       exists pdf_file,
         pdf_file ∈ input_documents (fun _ => true) sample_listdir
                      sample_config
         /\ forall field,
              field ∈ fields_to_extract sample_config ->
              exists value,
                find_field_value
                  (document_text sample_join sample_open sample_config
                     pdf_file)
                  field = Returns value
                /\ match value with
                   | None | Some [] =>
                       r !! field = Some ("No encontrado" : str)
                   | Some v => r !! field = Some v
                   end)
    sample_results.
Proof.
  apply Forall_forall.
  apply (placeholder_for_missing_or_empty (fun _ => true) sample_listdir
           sample_join sample_open sample_config sample_results empty_world
           (snd sample_run)).
  vm_compute. reflexivity.
Defined.

(** C5, as stated, fails for a document that yields empty text without a
    failure: it is skipped, and the whole run logs no warning or error. *)
Lemma empty_document_skipped_silently :
  let run :=
    main (fun _ => true) sample_listdir sample_join silent_open
      (fun _ => Done tt) "20240101_000000" sample_config empty_world in
  ("b.pdf" : str) ∈ input_documents (fun _ => true) sample_listdir sample_config
  /\ document_text sample_join silent_open sample_config "b.pdf" = []
  /\ fst run = Returns tt
  /\ existsb is_failure_report (logged (snd run)) = false.
Proof.
  cbv zeta. split; [|split; [|split]].
  - vm_compute. apply list_elem_of_In. cbn. tauto.
  - vm_compute. reflexivity.
  - vm_compute. reflexivity.
  - vm_compute. reflexivity.
Qed.

(** C9, as stated, fails: in the sample batch the field [X] has no match in
    [a.pdf] and an empty value in [c.PDF], and both Records store the
    placeholder. *)
Lemma empty_value_rendered_as_not_found :
  find_field_value
    (document_text sample_join sample_open sample_config "a.pdf") "X"
  = Returns None
  /\ find_field_value
       (document_text sample_join sample_open sample_config "c.PDF") "X"
     = Returns (Some [])
  /\ map (fun r : record_t => r !! ("X" : str)) sample_results
     = [Some ("No encontrado" : str); Some ("No encontrado" : str)].
Proof. repeat split; vm_compute; reflexivity. Qed.

(** ** Nothing to process *)

Section EmptyRun.

Variable path_exists : str -> bool.
Variable listdir : str -> list str.
Variable path_join : str -> str -> str.
Variable pdf_open : str -> attempt (list (attempt str)).
Variable csv_open : str -> attempt unit.
Variable timestamp : str.

Lemma process_pdfs_nothing (config : Config) (w : world) :
  input_documents path_exists listdir config = [] ->
  process_pdfs path_exists listdir path_join pdf_open config w
  = (Returns [], World (logged w ++ [nothing_found path_exists config]) (files w)).
Proof.
  unfold input_documents, process_pdfs, nothing_found.
  destruct (path_exists (source_folder config)); cbn [negb].
  - intros ->. reflexivity.
  - intros _. reflexivity.
Qed.

(** C8: with a missing source folder or no PDF in it, [process_pdfs] logs
    an error or a warning and returns an empty result set; [main] then ends
    without a call to the sink, and the sink itself writes nothing for an
    empty result set: no CSV file is produced.  ([files] holds the files of
    the Result Sink; the log file belongs to the logging collaborator.) *)
Theorem no_documents_no_output (config : Config) (w : world) :
  path_exists (source_folder config) = false
  \/ filter (fun f => Is_true (Py.endswith ".pdf" (Py.lower f)))
       (listdir (source_folder config)) = [] ->
  exists entry w1 w',
    (fst entry = WARNING \/ fst entry = ERROR)
    /\ process_pdfs path_exists listdir path_join pdf_open config w
       = (Returns [], w1)
    /\ entry ∈ logged w1
    /\ main path_exists listdir path_join pdf_open csv_open timestamp config w
       = (Returns tt, w')
    /\ entry ∈ logged w'
    /\ files w' = files w
    /\ save_results_to_csv path_join csv_open timestamp []
         (output_folder config) w1 = (Returns [], w1).
Proof.
  intros H.
  assert (E : input_documents path_exists listdir config = []).
  { unfold input_documents. destruct H as [-> | H]; [reflexivity|].
    rewrite H. destruct (path_exists _); reflexivity. }
  exists (nothing_found path_exists config). do 2 eexists.
  split; [|split; [apply process_pdfs_nothing, E
                  |split; [|split; [|split; [|split]]]]].
  - unfold nothing_found. destruct (path_exists _); auto.
  - cbn [logged]. apply elem_of_app. right. apply list_elem_of_singleton.
    reflexivity.
  - unfold main, mbind, prog_bind, bind. cbn [logging].
    rewrite process_pdfs_nothing by exact E. cbn [logging]. reflexivity.
  - cbn [logged]. rewrite !elem_of_app, !list_elem_of_singleton. tauto.
  - reflexivity.
  - reflexivity.
Qed.

End EmptyRun.

Lemma no_documents_no_output_witness :
  exists entry w1 w',
    (fst entry = WARNING \/ fst entry = ERROR)
    /\ process_pdfs (fun _ => false) sample_listdir sample_join sample_open
         sample_config empty_world = (Returns [], w1)
    /\ entry ∈ logged w1
    /\ main (fun _ => false) sample_listdir sample_join sample_open
         (fun _ => Done tt) "20240101_000000" sample_config empty_world
       = (Returns tt, w')
    /\ entry ∈ logged w'
    /\ files w' = files empty_world
    /\ save_results_to_csv sample_join (fun _ => Done tt) "20240101_000000" []
         (output_folder sample_config) w1 = (Returns [], w1).
Proof.
  apply (no_documents_no_output (fun _ => false) sample_listdir sample_join
           sample_open (fun _ => Done tt) "20240101_000000" sample_config
           empty_world).
  left. reflexivity.
Defined.

(** ** The Result Sink *)

(** Cleaning changes every value that shows the currency marker or the
    terminator. *)
Lemma clean_value_alters (v : str) :
  Py.contains "R$" v = true \/ Py.contains "Base:" v = true ->
  clean_value v <> v.
Proof.
  intros [H|H] E.
  - apply clean_value_shrinks in H. rewrite E in H. lia.
  - pose proof (clean_value_no_terminator v) as N. rewrite E in N. congruence.
Qed.

Section Sink.

Variable path_join : str -> str -> str.
Variable csv_open : str -> attempt unit.
Variable timestamp : str.

Local Abbreviation save := (save_results_to_csv path_join csv_open timestamp).

Lemma sorted_elem_of (s : gset str) (k : str) : k ∈ sorted s <-> k ∈ s.
Proof.
  unfold sorted. rewrite merge_sort_Permutation. apply elem_of_elements.
Qed.

Lemma writerow_cell (fieldnames : list str) (r : record_t) (i : nat)
      (k v : str) :
  fieldnames !! i = Some k -> r !! k = Some v ->
  writerow fieldnames (clean_value <$> r) !! i = Some (clean_value v).
Proof.
  intros Hi Hk. unfold writerow.
  rewrite list_lookup_fmap, Hi. cbn. rewrite lookup_fmap, Hk. reflexivity.
Qed.

(** C10: the file written for a result set has one row per Record, and the
    cell of every stored value, the identifier and the placeholder
    included, is [clean_value] of that value; so a stored value that
    contains ["R$"] or ["Base:"], a file name for instance, is written in
    altered form. *)
Theorem written_cells_are_cleaned (results : list record_t)
        (output_folder : str) (w : world) :
  results <> [] ->
  csv_open (path_join output_folder ("br_" ++ timestamp ++ ".csv")) = Done tt ->
  exists csv_path fieldnames rows w',
    save results output_folder w = (Returns csv_path, w')
    /\ files w' = files w ++ [(csv_path, Table fieldnames rows)]
    /\ Forall2
         (fun (r : record_t) (row : list str) =>
            length row = length fieldnames
            /\ forall k v,
                 r !! k = Some v ->
                 exists i,
                   fieldnames !! i = Some k
                   /\ row !! i = Some (clean_value v)
                   /\ (Py.contains "R$" v = true
                       \/ Py.contains "Base:" v = true ->
                       row !! i <> Some v))
         results rows.
Proof.
  intros Hne Hopen. unfold save_results_to_csv.
  destruct results as [|r0 results']; [congruence|].
  set (results := r0 :: results') in *. rewrite Hopen.
  set (fieldnames := sorted (⋃ (dom <$> results))).
  do 4 eexists. split; [reflexivity|]. split; [reflexivity|].
  apply Forall2_fmap_r, Forall_Forall2_diag, Forall_forall.
  intros r Hr. split.
  - unfold writerow. apply length_map.
  - intros k v Hk.
    assert (Hin : k ∈ fieldnames).
    { apply sorted_elem_of, elem_of_union_list. exists (dom r). split.
      - apply list_elem_of_fmap. eauto.
      - apply elem_of_dom. eauto. }
    apply list_elem_of_lookup in Hin as [i Hi]. exists i.
    split; [exact Hi|].
    rewrite (writerow_cell _ _ _ _ _ Hi Hk). split; [reflexivity|].
    intros Hv [= E]. exact (clean_value_alters v Hv E).
Qed.

End Sink.

Lemma written_cells_are_cleaned_witness :
  exists csv_path fieldnames rows w',
    save_results_to_csv sample_join (fun _ => Done tt) "20240101_000000"
      marked_results "out" empty_world = (Returns csv_path, w')
    /\ files w' = files empty_world ++ [(csv_path, Table fieldnames rows)]
    /\ Forall2
         (fun (r : record_t) (row : list str) =>
            length row = length fieldnames
            /\ forall k v,
                 r !! k = Some v ->
                 exists i,
                   fieldnames !! i = Some k
                   /\ row !! i = Some (clean_value v)
                   /\ (Py.contains "R$" v = true
                       \/ Py.contains "Base:" v = true ->
                       row !! i <> Some v))
         marked_results rows.
Proof.
  apply (written_cells_are_cleaned sample_join (fun _ => Done tt)
           "20240101_000000" marked_results "out" empty_world).
  - discriminate.
  - reflexivity.
Defined.

(** The file of that result set: the identifier is written as ["5"]. *)
Lemma marked_results_file :
  files (snd (save_results_to_csv sample_join (fun _ => Done tt)
                "20240101_000000" marked_results "out" empty_world))
  = [("out/br_20240101_000000.csv" : str,
      Table ["Archivo" : str; "Nome" : str] [["5" : str; "Ana" : str]])].
Proof. vm_compute. reflexivity. Qed.

(** * Further properties of the code *)

(** ** [clean_value] *)

Section CleanValueMore.
Import Py PyFacts.

Lemma replace_erase_sublist (o : ascii) (old s : str) :
  replace (o :: old) [] s `sublist_of` s.
Proof.
  remember (length s) as n eqn:Hn. revert s Hn.
  induction n as [n IH] using lt_wf_ind. intros s ->.
  destruct s as [|c s]; [reflexivity|].
  rewrite replace_cons. destruct (startswith (o :: old) (c :: s)).
  - cbn [app]. apply sublist_cons.
    etransitivity; [|apply (sublist_drop s (length old))].
    apply (IH (length (skipn (length old) s))); [|reflexivity].
    rewrite length_skipn. simpl. lia.
  - apply sublist_skip. apply (IH (length s)); [simpl; lia | reflexivity].
Qed.

Lemma strip_sublist (s : str) : strip s `sublist_of` s.
Proof.
  destruct (strip_infix s) as (l & r & E). rewrite E at 2.
  apply sublist_inserts_l, sublist_inserts_r. reflexivity.
Qed.

Lemma partition_sublist (sep s : str) : fst (partition sep s) `sublist_of` s.
Proof.
  destruct (partition_prefix sep s) as [r E]. rewrite E at 2.
  apply sublist_inserts_r. reflexivity.
Qed.

End CleanValueMore.

(** X1: whatever the input, a cleaned value has no white space at either
    end and does not contain the terminator ["Base:"]. *)
Theorem clean_value_postcondition (v : str) :
  Py.strip (clean_value v) = clean_value v
  /\ Py.contains "Base:" (clean_value v) = false.
Proof.
  split; [apply clean_value_stripped | apply clean_value_no_terminator].
Qed.

(** X2: cleaning only deletes characters: the cleaned value is a
    subsequence of the input, so it is never longer and never shows a
    character, or an order of characters, that the input did not have. *)
Theorem clean_value_only_deletes (v : str) :
  clean_value v `sublist_of` v /\ length (clean_value v) <= length v.
Proof.
  assert (S : clean_value v `sublist_of` v).
  { destruct v as [|c v]; [reflexivity|].
    rewrite clean_value_unfold. cbv zeta.
    assert (X : Py.strip (Py.replace "R$" [] (c :: v)) `sublist_of` c :: v).
    { etransitivity; [apply strip_sublist|].
      apply (replace_erase_sublist "R" ["$"%char]). }
    destruct (Py.contains "Base:" (Py.strip (Py.replace "R$" [] (c :: v))));
      [|exact X].
    etransitivity; [apply strip_sublist|].
    etransitivity; [apply partition_sublist | exact X]. }
  split; [exact S | apply sublist_length, S].
Qed.

(** X3: the values that cleaning leaves unchanged are exactly those without
    white space at either end, without the marker ["R$"] and without the
    terminator ["Base:"]. *)
Theorem clean_value_fixed_points (v : str) :
  clean_value v = v
  <-> Py.strip v = v
      /\ Py.contains "R$" v = false
      /\ Py.contains "Base:" v = false.
Proof.
  split.
  - intros E. split; [|split].
    + rewrite <- E at 1. rewrite clean_value_stripped. exact E.
    + destruct (Py.contains "R$" v) eqn:R; [|reflexivity].
      apply clean_value_shrinks in R. rewrite E in R. lia.
    + rewrite <- E. apply clean_value_no_terminator.
  - intros (S & R & B). now apply clean_value_fixed.
Qed.

(** ** What the Field Matcher returns *)

Section ValueShape.
Import Re MatchFacts.
Variable ic : bool.

Lemma star_greedy_inv (t : ctest) (k : cont) (s : str) (g res : caps) :
  star_greedy ic t k s g = Some res ->
  exists run rest,
    s = run ++ rest
    /\ Forall (fun c => test ic t c = true) run
    /\ k rest (extend run g) = Some res.
Proof.
  revert g. induction s as [|c s IH]; intros g H; cbn [star_greedy] in H.
  - exists [], []. rewrite extend_nil. auto.
  - destruct (test ic t c) eqn:T.
    + destruct (star_greedy ic t k s (push c g)) as [r|] eqn:E.
      * injection H as ->. destruct (IH _ E) as (run & rest & -> & F & K).
        exists (c :: run), rest. rewrite <- extend_push. auto.
      * exists [], (c :: s). rewrite extend_nil. auto.
    + exists [], (c :: s). rewrite extend_nil. auto.
Qed.

(** A match of the shape "separators, then group [n]" leaves in group [n]
    a non-empty run of the value set. *)
Lemma separators_then_group_inv (sepset valset : ctest) (n : nat)
      (s : str) (g res : caps) :
  opened g = [] ->
  m ic (separators_then_group sepset valset n) accept s g = Some res ->
  exists v,
    closed res = (n, v) :: closed g
    /\ v <> [] /\ Forall (fun c => test ic valset c = true) v.
Proof.
  intros Hg H. destruct g as [o cl]. cbn [opened closed] in *. subst o.
  unfold separators_then_group in H. cbn [m] in H.
  apply star_greedy_inv in H as (run & rest & _ & _ & H).
  destruct rest as [|c rest]; [discriminate H|]. cbn [one] in H.
  destruct (test ic valset c) eqn:T; [|discriminate H].
  apply star_greedy_inv in H as (run2 & rest2 & _ & F & H).
  unfold accept in H. injection H as <-.
  exists (c :: run2). split; [reflexivity|]. split; [discriminate | auto].
Qed.

Lemma scan_match_here (r : regex) (s : str) (res : caps) :
  scan ic r s = Some res -> exists s', match_here ic r s' = Some res.
Proof.
  induction s as [|c s IH]; cbn [scan]; intros H.
  - destruct (match_here ic r []) eqn:E; [|discriminate].
    injection H as ->. eauto.
  - destruct (match_here ic r (c :: s)) eqn:E; [|exact (IH H)].
    injection H as ->. eauto.
Qed.

End ValueShape.

Lemma pis_match_value (s : str) (res : Re.caps) :
  Re.match_here Re.IGNORECASE pis_regex s = Some res ->
  exists v,
    Re.assoc 2 (Re.closed res) = Some v
    /\ v <> [] /\ Forall (fun c => is_value_char c = true) v.
Proof.
  unfold Re.match_here, pis_regex. intros H.
  change (Re.m Re.IGNORECASE
            (Re.Group 1 (Re.Alt (Re.lits "PIS/PASEP/NIT" Re.Empty)
                                (Re.lits "PIS" Re.Empty)))
            (Re.m Re.IGNORECASE pis_after_label_regex Re.accept)
            s Re.no_caps = Some res) in H.
  apply m_reaches in H as (s' & g' & H & [Ko _] & _).
  assert (O : Re.opened g' = []).
  { destruct (Re.opened g'); [reflexivity | discriminate Ko]. }
  unfold pis_after_label_regex in H.
  apply separators_then_group_inv in H as (v & C & Hne & F); [|exact O].
  exists v. rewrite C. split; [reflexivity|]. split; [exact Hne|].
  eapply Forall_impl; [exact F|]. intros c Hc. cbn beta in Hc.
  rewrite MatchFacts.value_set_test in Hc. exact Hc.
Qed.

Lemma pis_value_chars (text v : str) :
  find_field_value text pis_field = Returns (Some v) ->
  v <> [] /\ Forall (fun c => is_value_char c = true) v.
Proof.
  unfold find_field_value, Re.search. rewrite pis_compile.
  destruct (Re.scan Re.IGNORECASE pis_regex text) as [g|] eqn:E;
    [|discriminate].
  apply scan_match_here in E as [s' M].
  apply pis_match_value in M as (x & A & Hne & F).
  change (str_eqb pis_field "PIS/PASEP/NIT"
          && (1 <? Re.ngroups (Re.Match (Re.closed g) 2))) with true.
  cbv [group Re.ngroups Re.captured]. cbn [Nat.ltb Nat.leb].
  rewrite A. cbv [strip_group].
  rewrite strip_nospace
    by (eapply Forall_impl; [exact F | apply value_char_not_space]).
  intros [= <-]. auto.
Qed.

(** X4: a value returned for the identifier field [PIS/PASEP/NIT] is never
    empty and consists of digits, [.], [-] and [/] only, whatever the
    text. *)
Theorem pis_value_shape (text v : str) :
  find_field_value text pis_field = Returns (Some v) ->
  v <> [] /\ Forall (fun c => is_value_char c = true) v.
Proof. apply pis_value_chars. Qed.

Lemma pis_value_shape_witness :
  ("123.45678.90-1" : str) <> []
  /\ Forall (fun c => is_value_char c = true) ("123.45678.90-1" : str).
Proof.
  apply (pis_value_shape "Nome: Ana PIS/PASEP/NIT: 123.45678.90-1 CTPS").
  vm_compute. reflexivity.
Defined.

(** X5: a value returned for any other field went through [clean_value]:
    it has no white space at either end and does not contain ["Base:"]. *)
Theorem other_value_shape (text field_name v : str) :
  field_name <> pis_field ->
  find_field_value text field_name = Returns (Some v) ->
  Py.strip v = v /\ Py.contains "Base:" v = false.
Proof.
  intros Hf. unfold find_field_value.
  destruct (Re.search _ text Re.IGNORECASE) as [[mo|]| |]; try discriminate.
  assert (E : str_eqb field_name "PIS/PASEP/NIT" = false)
    by (apply bool_decide_eq_false_2; exact Hf).
  rewrite E. cbn [andb].
  destruct (strip_group (group mo 1)) as [x| |]; try discriminate.
  intros [= <-].
  split; [apply clean_value_stripped | apply clean_value_no_terminator].
Qed.

Lemma other_value_shape_witness :
  Py.strip "Ana Lima" = ("Ana Lima" : str)
  /\ Py.contains "Base:" ("Ana Lima" : str) = false.
Proof.
  apply (other_value_shape ("Nome:   Ana Lima  " ++ [Re.LF] ++ "PIS: 1")
           "Nome" "Ana Lima").
  - discriminate.
  - vm_compute. reflexivity.
Defined.

(** ** Labels: absent, in another case, without a value *)

Section Labels.
Import Re MatchFacts.


Lemma m_lits_ignorecase (f label : str) (r : regex) (k : cont) (s : str)
      (g : caps) :
  Py.lower label = Py.lower f ->
  m IGNORECASE (lits f r) k (label ++ s) g
  = m IGNORECASE r k s (extend label g).
Proof.
  revert label g. induction f as [|a f IH]; intros label g H.
  - destruct label; [|discriminate H]. rewrite extend_nil. reflexivity.
  - destruct label as [|b label]; [discriminate H|].
    cbn [Py.lower map] in H. injection H as Hb H.
    cbn [lits fold_right app m one test same_char IGNORECASE].
    rewrite Hb, Ascii.eqb_refl. fold (lits f r).
    rewrite (IH label) by exact H. rewrite extend_push. reflexivity.
Qed.







End Labels.



(** X7: the label is matched without regard to case: the fallback finds a
    line whose label differs from the field name in case only, under the
    conditions of the exact label. *)
Theorem fallback_ignores_case (field_name label pre sep line post : str) :
  Py.lower label = Py.lower field_name ->
  ~ known_field field_name ->
  Forall (fun c => plain c = true) field_name ->
  Forall (fun c => is_separator c = true) sep ->
  Forall (fun c => (c =? Re.LF)%char = false) line ->
  line <> [] ->
  (forall c rest, line = c :: rest -> is_separator c = false) ->
  ends_line post ->
  unmatched_before field_name (pre ++ label ++ sep ++ line ++ post)
    (length pre) ->
  find_field_value (pre ++ label ++ sep ++ line ++ post) field_name
  = Returns (Some (clean_value (Py.strip line))).
Proof.
  intros Hl Hk Hf Hsep Hline Hne Hhead Hpost Hpre.
  rewrite find_field_value_skip by exact Hpre.
  rewrite unknown_field_uses_generic by exact Hk.
  unfold Re.search. rewrite compile_generic by exact Hf.
  assert (M : Re.match_here Re.IGNORECASE
                (Re.lits field_name generic_tail_regex)
                (label ++ sep ++ line ++ post)
              = Some (Re.Caps [] [(1, line)])).
  { unfold Re.match_here. rewrite m_lits_ignorecase by exact Hl.
    unfold generic_tail_regex.
    apply MatchFacts.m_separators_then_group; try assumption.
    - reflexivity.
    - eapply Forall_impl; [exact Hsep|].
      intros c Hc. cbn beta. rewrite MatchFacts.separator_set_test. exact Hc.
    - eapply Forall_impl; [exact Hline|].
      intros c Hc. cbn beta. rewrite MatchFacts.line_set_test, Hc.
      reflexivity.
    - destruct line as [|c rest]; [exact I|]. cbn [Re.stops].
      rewrite MatchFacts.separator_set_test. exact (Hhead c rest eq_refl).
    - destruct post as [|c post]; [exact I|]. cbn [Re.stops ends_line] in *.
      subst c. reflexivity. }
  rewrite (scan_here _ _ _ _ M). reflexivity.
Qed.

Lemma fallback_ignores_case_witness :
  find_field_value ("Doc 7" ++ [Re.LF] ++ "CARGO:  Analista" ++ [Re.LF]) "Cargo"
  = Returns (Some ("Analista" : str)).
Proof.
  apply (fallback_ignores_case "Cargo" "CARGO" ("Doc 7" ++ [Re.LF]) ":  "
           "Analista" [Re.LF]).
  - reflexivity.
  - unfold known_field. cbn. intros [H|[H|[H|[]]]]; discriminate H.
  - repeat constructor.
  - repeat constructor.
  - repeat constructor.
  - discriminate.
  - intros c rest H. injection H as <- _. reflexivity.
  - reflexivity.
  - intros n Hn.
    do 6 (destruct n as [|n]; [vm_compute; reflexivity|]).
    simpl in Hn. lia.
Defined.

Section LabelWithoutValue.
Import Re MatchFacts.

Lemma separator_not_value_char (c : ascii) :
  is_separator c = true -> is_value_char c = false.
Proof.
  intros H. destruct (is_value_char c) eqn:E; [|reflexivity].
  apply value_char_not_separator in E. congruence.
Qed.

(** After the label, separators that lead to no value give no match. *)
Lemma pis_after_label_fails (sep rest : str) (g : caps) :
  Forall (fun c => is_separator c = true) sep ->
  no_value rest ->
  m IGNORECASE pis_after_label_regex accept (sep ++ rest) g = None.
Proof.
  intros Hsep Hrest. unfold pis_after_label_regex, separators_then_group.
  cbn [m]. revert g. induction Hsep as [|c sep Hc _ IH]; intros g.
  - cbn [app]. rewrite star_greedy_stops.
    + apply one_stops. destruct rest as [|x rest]; [exact I|].
      cbn [stops]. rewrite value_set_test. exact (proj2 Hrest).
    + destruct rest as [|x rest]; [exact I|].
      cbn [stops]. rewrite separator_set_test. exact (proj1 Hrest).
  - cbn [app star_greedy].
    assert (T : test IGNORECASE separator_set c = true)
      by (rewrite separator_set_test; exact Hc).
    rewrite T, IH.
    apply one_stops. cbn [stops]. rewrite value_set_test.
    apply separator_not_value_char, Hc.
Qed.

Lemma pis_label_without_value_here (sep rest : str) :
  Forall (fun c => is_separator c = true) sep ->
  no_value rest ->
  find_field_value ("PIS/PASEP/NIT" ++ sep ++ rest) pis_field
  = Returns (Some ("/" : str)).
Proof.
  intros Hsep Hrest. apply (pis_found _ _ "PIS"); [|repeat constructor].
  unfold match_here, pis_regex. cbn [m].
  rewrite m_lits. cbn [m]. rewrite pis_after_label_fails by assumption.
  change (("PIS/PASEP/NIT" : str) ++ sep ++ rest)
    with (("PIS" : str) ++ [] ++ ("/" : str) ++ ("PASEP/NIT" : str)
          ++ sep ++ rest).
  rewrite m_lits. cbn [m].
  rewrite pis_after_label; [reflexivity | reflexivity | constructor
                            | repeat constructor | discriminate
                            | reflexivity].
Qed.

End LabelWithoutValue.

(** X8: a line that carries the long label [PIS/PASEP/NIT] but no value is
    not reported as not found: the short label [PIS] matches inside the
    long one and the [/] that follows it is returned as the value. *)
Theorem pis_label_without_value (pre sep rest : str) :
  Forall (fun c => is_separator c = true) sep ->
  no_value rest ->
  unmatched_before pis_field (pre ++ "PIS/PASEP/NIT" ++ sep ++ rest)
    (length pre) ->
  find_field_value (pre ++ "PIS/PASEP/NIT" ++ sep ++ rest) pis_field
  = Returns (Some ("/" : str)).
Proof.
  intros Hsep Hrest Hpre. rewrite find_field_value_skip by exact Hpre.
  now apply pis_label_without_value_here.
Qed.

Lemma pis_label_without_value_witness :
  find_field_value ("Nome: Ana" ++ [Re.LF] ++ "PIS/PASEP/NIT: nao informado")
    pis_field
  = Returns (Some ("/" : str)).
Proof.
  apply (pis_label_without_value ("Nome: Ana" ++ [Re.LF]) ": "
           "nao informado").
  - repeat constructor.
  - split; reflexivity.
  - intros n Hn.
    do 10 (destruct n as [|n]; [vm_compute; reflexivity|]).
    simpl in Hn. lia.
Defined.

(** X9: the table is looked up with the exact field name: the currency
    pattern is selected for ["Valor Base para Fins Rescisorios"] and for no
    other name.  The name the default configuration uses, ["Valor Base para
    Fins"], is therefore handled by the fallback. *)
Theorem currency_pattern_exact_name (field_name : str) :
  dict_get patterns field_name (generic_pattern field_name) = currency_pattern
  <-> field_name = currency_field.
Proof.
  split; [|intros ->; reflexivity].
  intros H.
  destruct (decide (field_name = currency_field)) as [E|N1]; [exact E|].
  destruct (decide (field_name = ("Nome" : str))) as [->|N2];
    [vm_compute in H; discriminate H|].
  destruct (decide (field_name = pis_field)) as [->|N3];
    [vm_compute in H; discriminate H|].
  exfalso. rewrite dict_get_unknown in H.
  - apply (f_equal (@rev ascii)) in H.
    change (generic_pattern field_name) with (field_name ++ generic_tail) in H.
    rewrite rev_app_distr in H. vm_compute in H. discriminate H.
  - unfold known_field. cbn [map fst patterns In].
    intros [E|[E|[E|[]]]]; symmetry in E; contradiction.
Qed.

(** ** The Text Extractor: [extract_text_from_pdf] *)

Section Extraction.

Variable pdf_open : str -> attempt (list (attempt str)).

Lemma read_pages_all (texts : list str) (text : str) :
  read_pages (map Done texts) text = Done (text ++ pages_text texts).
Proof.
  revert text. induction texts as [|t texts IH]; intros text.
  - cbn. rewrite app_nil_r. reflexivity.
  - cbn [map read_pages]. rewrite IH. unfold pages_text. cbn [map concat].
    rewrite <- !app_assoc. reflexivity.
Qed.

Lemma read_pages_fails (texts : list str) (message : str)
      (later : list (attempt str)) (text : str) :
  read_pages (map Done texts ++ Failed message :: later) text = Failed message.
Proof.
  revert text. induction texts as [|t texts IH]; intros text; [reflexivity|].
  cbn [map app read_pages]. apply IH.
Qed.

(** X10: when every page of a document is read, the extracted text is the
    text of the pages in order, each followed by a line feed, and nothing
    is logged.  That text is empty only for a document without pages: a
    document with pages is kept even when no page has any text. *)
Theorem extraction_joins_pages (pdf_path : str) (texts : list str) (w : world) :
  pdf_open pdf_path = Done (map Done texts) ->
  extract_text_from_pdf pdf_open pdf_path w = (Returns (pages_text texts), w)
  /\ (pages_text texts = [] <-> texts = []).
Proof.
  intros H. split.
  - unfold extract_text_from_pdf, read_pdf. rewrite H, read_pages_all.
    reflexivity.
  - split; [|intros ->; reflexivity].
    destruct texts as [|t texts]; [reflexivity|].
    unfold pages_text. cbn [map concat]. intros E.
    apply app_eq_nil in E as [E _]. apply app_eq_nil in E as [_ E].
    discriminate E.
Qed.

(** X11: when the document cannot be opened, or one of its pages cannot
    be read, the extractor returns the empty text, so that the text of the
    pages before the failure is lost too, and logs one error that names
    the path and carries the message of the failure. *)
Theorem extraction_failure_discards_text (pdf_path message : str) (w : world) :
  pdf_open pdf_path = Failed message
  \/ (exists pages, pdf_open pdf_path = Done pages /\ fails_with pages message)
  ->
  extract_text_from_pdf pdf_open pdf_path w
  = (Returns [],
     World (logged w
            ++ [(ERROR, "Error al leer el archivo " ++ pdf_path ++ ": "
                        ++ message)])
           (files w)).
Proof.
  unfold extract_text_from_pdf, read_pdf.
  intros [H | (pages & H & texts & later & ->)]; rewrite H.
  - reflexivity.
  - rewrite read_pages_fails. reflexivity.
Qed.

End Extraction.

Lemma extraction_joins_pages_witness :
  extract_text_from_pdf (fun _ => Done [Done []; Done []]) "scan.pdf"
    empty_world
  = (Returns [Re.LF; Re.LF], empty_world)
  /\ (([Re.LF; Re.LF] : str) = [] <-> ([[]; []] : list str) = []).
Proof.
  apply (extraction_joins_pages (fun _ => Done [Done []; Done []]) "scan.pdf"
           [[]; []] empty_world).
  reflexivity.
Defined.

Lemma extraction_failure_discards_text_witness :
  extract_text_from_pdf
    (fun _ => Done [Done ("Nome: Ana" : str); Failed "bad stream"; Done []])
    "in/a.pdf" empty_world
  = (Returns [],
     World [(ERROR, "Error al leer el archivo in/a.pdf: bad stream" : str)] []).
Proof.
  apply (extraction_failure_discards_text
           (fun _ => Done [Done ("Nome: Ana" : str); Failed "bad stream";
                           Done []])
           "in/a.pdf" "bad stream" empty_world).
  right. eexists. split; [reflexivity|].
  exists ["Nome: Ana" : str], [Done []]. reflexivity.
Defined.

(** ** The Batch Aggregator, whatever its outcome *)

Section Frame.

Lemma only_logs_ret {A : Type} (a : A) : only_logs (ret a).
Proof. intros w o w' [= _ <-]. apply grows_refl. Qed.

Lemma only_logs_lift {A : Type} (x : outcome A) : only_logs (lift x).
Proof. intros w o w' [= _ <-]. apply grows_refl. Qed.

Lemma only_logs_logging (l : level) (msg : str) : only_logs (logging l msg).
Proof. intros w o w' [= _ <-]. apply grows_logging. Qed.

Lemma only_logs_bind {A B : Type} (c : prog A) (k : A -> prog B) :
  only_logs c -> (forall a, only_logs (k a)) -> only_logs (c ≫= k).
Proof.
  intros Hc Hk w o w'. unfold mbind, prog_bind, bind.
  destruct (c w) as [[a| |] w1] eqn:E; intros H.
  - eapply grows_trans; [exact (Hc _ _ _ E) | exact (Hk _ _ _ _ H)].
  - injection H as _ <-. exact (Hc _ _ _ E).
  - injection H as _ <-. exact (Hc _ _ _ E).
Qed.

Lemma only_logs_for_each {A S : Type} (l : list A) (body : A -> S -> prog S)
      (acc : S) :
  (forall x a, only_logs (body x a)) -> only_logs (for_each l body acc).
Proof.
  intros Hb. revert acc. induction l as [|x l IH]; intros acc; cbn [for_each].
  - apply only_logs_ret.
  - apply only_logs_bind; [apply Hb | exact IH].
Qed.

Lemma only_logs_field_loop_body (text field : str) (rec : record_t) :
  only_logs (field_loop_body text field rec).
Proof.
  unfold field_loop_body. apply only_logs_bind; [apply only_logs_lift|].
  intros value. apply only_logs_bind; [apply only_logs_logging|].
  intros _. apply only_logs_ret.
Qed.

Variable path_exists : str -> bool.
Variable listdir : str -> list str.
Variable path_join : str -> str -> str.
Variable pdf_open : str -> attempt (list (attempt str)).

Lemma only_logs_extract (pdf_path : str) :
  only_logs (extract_text_from_pdf pdf_open pdf_path).
Proof.
  unfold extract_text_from_pdf. destruct (read_pdf pdf_open pdf_path).
  - apply only_logs_ret.
  - apply only_logs_bind; [apply only_logs_logging|].
    intros _. apply only_logs_ret.
Qed.

Lemma only_logs_pdf_loop_body (source : str) (fields : list str)
      (pdf_file : str) (results : list record_t) :
  only_logs (pdf_loop_body path_join pdf_open source fields pdf_file results).
Proof.
  unfold pdf_loop_body. apply only_logs_bind; [apply only_logs_logging|].
  intros _. apply only_logs_bind; [apply only_logs_extract|].
  intros [|c text]; [apply only_logs_ret|].
  apply only_logs_bind.
  - apply only_logs_for_each. intros. apply only_logs_field_loop_body.
  - intros r. apply only_logs_ret.
Qed.

Lemma only_logs_process (config : Config) :
  only_logs (process_pdfs path_exists listdir path_join pdf_open config).
Proof.
  unfold process_pdfs. destruct (negb _).
  - apply only_logs_bind; [apply only_logs_logging|].
    intros _. apply only_logs_ret.
  - destruct (filter _ _) as [|d docs] eqn:E.
    + apply only_logs_bind; [apply only_logs_logging|].
      intros _. apply only_logs_ret.
    + apply only_logs_for_each. intros. apply only_logs_pdf_loop_body.
Qed.

(** X12: whatever its outcome, also when a field makes it raise,
    [process_pdfs] writes no file and only appends to the log: the
    entries logged before the call are kept, in order. *)
Theorem process_pdfs_only_logs (config : Config) (w : world) :
  files (snd (process_pdfs path_exists listdir path_join pdf_open config w))
  = files w
  /\ exists l,
       logged (snd (process_pdfs path_exists listdir path_join pdf_open
                      config w))
       = logged w ++ l.
Proof.
  destruct (process_pdfs path_exists listdir path_join pdf_open config w)
    as [o w'] eqn:E.
  exact (only_logs_process config _ _ _ E).
Qed.

(** X13: a configured field whose pattern does not compile loses the whole
    batch: as soon as one document has text, [process_pdfs] does not return
    a result set, whatever the other fields and documents are. *)
Theorem invalid_field_aborts_batch (config : Config) (field : str) (w : world) :
  field ∈ fields_to_extract config ->
  Re.compile (dict_get patterns field (generic_pattern field)) = Re.Error ->
  surviving_documents path_exists listdir path_join pdf_open config <> [] ->
  returned (fst (process_pdfs path_exists listdir path_join pdf_open config w))
  = false.
Proof.
  intros Hin Hc Hs.
  destruct (process_pdfs path_exists listdir path_join pdf_open config w)
    as [[results| |] w'] eqn:E; try reflexivity.
  exfalso. apply process_pdfs_returns in E as (_ & R & _).
  destruct R as [|d r ds rs Hr _]; [congruence|].
  destruct Hr as (_ & Hval & _).
  destruct (Hval field Hin) as (value & Hv & _).
  unfold find_field_value, Re.search in Hv. rewrite Hc in Hv. discriminate Hv.
Qed.

(** X14: when no configured field is named [Archivo], the identifier
    columns of the result set are the names of the documents that have
    text, in the order of the directory listing. *)
Theorem identifiers_are_surviving_documents (config : Config)
        (results : list record_t) (w w' : world) :
  process_pdfs path_exists listdir path_join pdf_open config w
  = (Returns results, w') ->
  ("Archivo" : str) ∉ fields_to_extract config ->
  map (fun r : record_t => r !! ("Archivo" : str)) results
  = map Some (surviving_documents path_exists listdir path_join pdf_open
                config).
Proof.
  intros H Hn. apply process_pdfs_returns in H as (_ & R & _).
  induction R as [|d r ds rs Hr _ IH]; [reflexivity|].
  cbn [map]. rewrite IH. destruct Hr as (_ & _ & Hid).
  rewrite (Hid Hn). reflexivity.
Qed.

End Frame.

Lemma invalid_field_aborts_batch_witness :
  returned (fst (process_pdfs (fun _ => true) sample_listdir sample_join
                   sample_open broken_config empty_world))
  = false.
Proof.
  apply (invalid_field_aborts_batch (fun _ => true) sample_listdir sample_join
           sample_open broken_config "Valor (R$" empty_world).
  - apply list_elem_of_In. cbn. tauto.
  - vm_compute. reflexivity.
  - vm_compute. discriminate.
Defined.

Lemma identifiers_are_surviving_documents_witness :
  map (fun r : record_t => r !! ("Archivo" : str)) sample_results
  = [Some ("a.pdf" : str); Some ("c.PDF" : str)].
Proof.
  apply (identifiers_are_surviving_documents (fun _ => true) sample_listdir
           sample_join sample_open sample_config sample_results empty_world
           (snd sample_run)).
  - vm_compute. reflexivity.
  - intros H. apply list_elem_of_In in H. cbn in H.
    destruct H as [H|[H|[H|[]]]]; discriminate H.
Defined.

(** ** The Result Sink: header and cells *)

Section Order.

Lemma str_leb_total (a b : str) : str_leb a b = true \/ str_leb b a = true.
Proof.
  revert b. induction a as [|x a IH]; intros b; [left; reflexivity|].
  destruct b as [|y b]; [right; reflexivity|]. cbn [str_leb].
  destruct (Nat.lt_trichotomy (nat_of_ascii x) (nat_of_ascii y))
    as [L|[E|L]].
  - left. apply Nat.ltb_lt in L. rewrite L. reflexivity.
  - rewrite E, Nat.eqb_refl, Nat.ltb_irrefl. cbn [orb andb]. apply IH.
  - right. apply Nat.ltb_lt in L. rewrite L. reflexivity.
Qed.

Lemma str_leb_trans (a b c : str) :
  str_leb a b = true -> str_leb b c = true -> str_leb a c = true.
Proof.
  revert b c. induction a as [|x a IH]; intros b c; [reflexivity|].
  destruct b as [|y b]; [discriminate|].
  destruct c as [|z c]; [intros _ H; discriminate H|].
  cbn [str_leb]. rewrite !orb_true_iff, !andb_true_iff.
  rewrite !Nat.ltb_lt, !Nat.eqb_eq.
  intros [L1|[E1 H1]] [L2|[E2 H2]].
  - left. lia.
  - left. lia.
  - left. lia.
  - right. split; [lia | eauto].
Qed.

#[local] Instance str_le_total : Total str_le.
Proof. intros a b. apply str_leb_total. Qed.

#[local] Instance str_le_trans : Transitive str_le.
Proof. intros a b c. apply str_leb_trans. Qed.

Lemma sorted_is_sorted (s : gset str) :
  StronglySorted str_le (sorted s) /\ NoDup (sorted s).
Proof.
  unfold sorted. split.
  - apply StronglySorted_merge_sort; apply _.
  - rewrite merge_sort_Permutation. apply NoDup_elements.
Qed.

End Order.

Section SinkHeader.

Variable path_join : str -> str -> str.
Variable csv_open : str -> attempt unit.
Variable timestamp : str.

(** X15: the header of the written file lists every key of every Record
    once, and nothing else, in ascending order of code points. *)
Theorem header_is_sorted_union (results : list record_t) (output_folder : str)
        (w : world) :
  results <> [] ->
  csv_open (path_join output_folder ("br_" ++ timestamp ++ ".csv")) = Done tt ->
  exists csv_path fieldnames rows w',
    save_results_to_csv path_join csv_open timestamp results output_folder w
    = (Returns csv_path, w')
    /\ files w' = files w ++ [(csv_path, Table fieldnames rows)]
    /\ StronglySorted str_le fieldnames
    /\ NoDup fieldnames
    /\ forall k,
         k ∈ fieldnames <-> exists r, r ∈ results /\ is_Some (r !! k).
Proof.
  intros Hne Hopen. unfold save_results_to_csv.
  destruct results as [|r0 results']; [congruence|].
  set (results := r0 :: results') in *. rewrite Hopen.
  do 4 eexists. split; [reflexivity|]. split; [reflexivity|].
  destruct (sorted_is_sorted (⋃ (dom <$> results))) as [S N].
  split; [exact S|]. split; [exact N|].
  intros k. rewrite sorted_elem_of, elem_of_union_list. split.
  - intros (X & HX & Hk). apply list_elem_of_fmap in HX as (r & -> & Hr).
    exists r. split; [exact Hr|]. apply elem_of_dom, Hk.
  - intros (r & Hr & Hk). exists (dom r). split.
    + apply list_elem_of_fmap. eauto.
    + apply elem_of_dom, Hk.
Qed.

End SinkHeader.

Lemma header_is_sorted_union_witness :
  exists csv_path fieldnames rows w',
    save_results_to_csv sample_join (fun _ => Done tt) "20240101_000000"
      sample_results "out" empty_world = (Returns csv_path, w')
    /\ files w' = files empty_world ++ [(csv_path, Table fieldnames rows)]
    /\ StronglySorted str_le fieldnames
    /\ NoDup fieldnames
    /\ forall k,
         k ∈ fieldnames <-> exists r, r ∈ sample_results /\ is_Some (r !! k).
Proof.
  apply (header_is_sorted_union sample_join (fun _ => Done tt)
           "20240101_000000" sample_results "out" empty_world).
  - vm_compute. discriminate.
  - reflexivity.
Defined.

(** ** From the document to the file *)

Section EndToEnd.

Lemma contains_absent_head (c : ascii) (sub v : str) :
  Forall (fun x => (c =? x)%char = false) v ->
  Py.contains (c :: sub) v = false.
Proof.
  induction 1 as [|x v Hx _ IH]; [reflexivity|].
  cbn [Py.contains Py.startswith]. rewrite Hx, IH. reflexivity.
Qed.

Lemma value_char_facts (c : ascii) :
  is_value_char c = true ->
  Py.isspace c = false /\ ("R" =? c)%char = false /\ ("B" =? c)%char = false.
Proof.
  destruct c as [[] [] [] [] [] [] [] []]; vm_compute;
    intros H; solve [auto | discriminate H].
Qed.

(** The defensive cleanup leaves an identifier number as it is. *)
Lemma clean_value_value_chars (v : str) :
  Forall (fun c => is_value_char c = true) v -> clean_value v = v.
Proof.
  intros F. apply clean_value_fixed.
  - apply strip_nospace. eapply Forall_impl; [exact F|].
    intros c Hc. apply value_char_facts, Hc.
  - apply (contains_absent_head "B" ["a"; "s"; "e"; ":"]%char).
    eapply Forall_impl; [exact F|]. intros c Hc. apply value_char_facts, Hc.
  - apply (contains_absent_head "R" ["$"%char]).
    eapply Forall_impl; [exact F|]. intros c Hc. apply value_char_facts, Hc.
Qed.

Variable path_exists : str -> bool.
Variable listdir : str -> list str.
Variable path_join : str -> str -> str.
Variable pdf_open : str -> attempt (list (attempt str)).
Variable csv_open : str -> attempt unit.
Variable timestamp : str.

(** X16: from the documents to the file.  When the aggregator returns a
    result set and the sink writes it, the file has one row per document
    with text, in order, and in the row of a document the column of every
    configured field holds the placeholder when the Field Matcher found
    nothing, and, for the identifier field [PIS/PASEP/NIT], the value the
    Field Matcher returned: the second cleanup changes neither. *)
Theorem placeholder_and_identifier_reach_the_file (config : Config)
        (results : list record_t) (output_folder : str) (w w1 : world) :
  process_pdfs path_exists listdir path_join pdf_open config w
  = (Returns results, w1) ->
  results <> [] ->
  csv_open (path_join output_folder ("br_" ++ timestamp ++ ".csv")) = Done tt ->
  exists csv_path fieldnames rows w2,
    save_results_to_csv path_join csv_open timestamp results output_folder w1
    = (Returns csv_path, w2)
    /\ files w2 = files w1 ++ [(csv_path, Table fieldnames rows)]
    /\ Forall2
         (fun (pdf_file : str) (row : list str) =>
            forall field,
              field ∈ fields_to_extract config ->
              exists i value,
                fieldnames !! i = Some field
                /\ find_field_value
                     (document_text path_join pdf_open config pdf_file) field
                   = Returns value
                /\ (value = None -> row !! i = Some ("No encontrado" : str))
                /\ (field = pis_field ->
                    forall v, value = Some v -> row !! i = Some v))
         (surviving_documents path_exists listdir path_join pdf_open config)
         rows.
Proof.
  intros H Hne Hopen. apply process_pdfs_returns in H as (_ & R & _).
  unfold save_results_to_csv.
  destruct results as [|r0 results']; [congruence|].
  set (results := r0 :: results') in *. rewrite Hopen.
  set (fieldnames := sorted (⋃ (dom <$> results))).
  do 4 eexists. split; [reflexivity|]. split; [reflexivity|].
  apply Forall2_same_length_lookup. split.
  - rewrite length_map. exact (Forall2_length _ _ _ R).
  - intros n pdf_file row Hd Hrow.
    rewrite list_lookup_fmap in Hrow.
    destruct (results !! n) as [r|] eqn:Hr; [|discriminate Hrow].
    cbn in Hrow. injection Hrow as <-.
    destruct (Forall2_lookup_lr _ _ _ _ _ _ R Hd Hr) as (Hdom & Hval & _).
    intros field Hin. destruct (Hval field Hin) as (value & Hv & Hlook).
    assert (Hk : field ∈ fieldnames).
    { apply sorted_elem_of, elem_of_union_list. exists (dom r). split.
      - apply list_elem_of_fmap. exists r. split; [reflexivity|].
        apply list_elem_of_lookup. eauto.
      - apply elem_of_dom. eauto. }
    apply list_elem_of_lookup in Hk as [i Hi].
    exists i, value. split; [exact Hi|]. split; [exact Hv|].
    rewrite (writerow_cell _ _ _ _ _ Hi Hlook). split.
    + intros ->. reflexivity.
    + intros -> v ->. destruct (pis_value_chars _ _ Hv) as [Hnv F].
      destruct v as [|c v]; [congruence|]. cbn [or_not_found].
      rewrite (clean_value_value_chars _ F). reflexivity.
Qed.

End EndToEnd.

Lemma placeholder_and_identifier_reach_the_file_witness :
  exists csv_path fieldnames rows w2,
    save_results_to_csv sample_join (fun _ => Done tt) "20240101_000000"
      sample_results "out" (snd sample_run) = (Returns csv_path, w2)
    /\ files w2 = files (snd sample_run) ++ [(csv_path, Table fieldnames rows)]
    /\ Forall2
         (fun (pdf_file : str) (row : list str) =>
            forall field,
              field ∈ fields_to_extract sample_config ->
              exists i value,
                fieldnames !! i = Some field
                /\ find_field_value
                     (document_text sample_join sample_open sample_config
                        pdf_file) field
                   = Returns value
                /\ (value = None -> row !! i = Some ("No encontrado" : str))
                /\ (field = pis_field ->
                    forall v, value = Some v -> row !! i = Some v))
         (surviving_documents (fun _ => true) sample_listdir sample_join
            sample_open sample_config)
         rows.
Proof.
  apply (placeholder_and_identifier_reach_the_file (fun _ => true)
           sample_listdir sample_join sample_open (fun _ => Done tt)
           "20240101_000000" sample_config sample_results "out" empty_world
           (snd sample_run)).
  - vm_compute. reflexivity.
  - vm_compute. discriminate.
  - reflexivity.
Defined.

(** ** [main] *)

Section Main.

Variable path_exists : str -> bool.
Variable listdir : str -> list str.
Variable path_join : str -> str -> str.
Variable pdf_open : str -> attempt (list (attempt str)).
Variable csv_open : str -> attempt unit.
Variable timestamp : str.

Local Abbreviation run_main :=
  (main path_exists listdir path_join pdf_open csv_open timestamp).
Local Abbreviation process :=
  (process_pdfs path_exists listdir path_join pdf_open).
Local Abbreviation save := (save_results_to_csv path_join csv_open timestamp).
Local Abbreviation survivors :=
  (surviving_documents path_exists listdir path_join pdf_open).

(** [main] after its banner: the aggregator, then the sink or the warning. *)
Lemma main_after_banner (config : Config) (w : world) :
  run_main config w
  = (results ← process config;
     match results with
     | _ :: _ =>
         csv_path ← save results (output_folder config);
         match csv_path with
         | _ :: _ =>
             logging INFO
               ("Proceso completado. " ++ str_of_nat (length results)
                ++ " registros procesados.")
         | [] => logging ERROR "No se pudo generar el archivo CSV"
         end
     | [] => logging (fst no_records_warning) (snd no_records_warning)
     end) (started config w).
Proof.
  unfold main, started, banner, mbind, prog_bind, bind, logging.
  cbn [logged files]. rewrite <- !app_assoc. reflexivity.
Qed.

(** X17: when the aggregator has returned Records but the CSV file cannot
    be opened, [main] still ends normally: it writes no file and its last
    two log entries are the error of the sink, with the message of the
    failure, and its own error. *)
Theorem csv_failure_is_reported (config : Config) (results : list record_t)
        (message : str) (w w1 : world) :
  process config (started config w) = (Returns results, w1) ->
  results <> [] ->
  csv_open (path_join (output_folder config) ("br_" ++ timestamp ++ ".csv"))
  = Failed message ->
  run_main config w
  = (Returns tt,
     World (logged w1
            ++ [(ERROR, "Error al generar archivo CSV: " ++ message);
                (ERROR, "No se pudo generar el archivo CSV" : str)])
           (files w1)).
Proof.
  intros H Hne Hopen. rewrite main_after_banner.
  unfold mbind, prog_bind, bind at 1. rewrite H.
  destruct results as [|r results]; [congruence|].
  unfold save_results_to_csv. rewrite Hopen.
  unfold mbind, prog_bind, bind, logging, ret. cbn [logged files].
  rewrite <- app_assoc. reflexivity.
Qed.

(** X18: when the aggregator has returned Records and the sink writes
    them, [main] writes exactly that one file, named [br_<timestamp>.csv]
    in the output folder, and its last log entry reports as many Records
    as the file has rows, which is the number of documents with text. *)
Theorem successful_run_summary (config : Config) (results : list record_t)
        (w w1 : world) :
  process config (started config w) = (Returns results, w1) ->
  results <> [] ->
  csv_open (path_join (output_folder config) ("br_" ++ timestamp ++ ".csv"))
  = Done tt ->
  path_join (output_folder config) ("br_" ++ timestamp ++ ".csv") <> [] ->
  exists fieldnames rows,
    run_main config w
    = (Returns tt,
       World (logged w1
              ++ [(INFO, "Archivo CSV generado exitosamente: "
                         ++ path_join (output_folder config)
                              ("br_" ++ timestamp ++ ".csv"));
                  (INFO, "Proceso completado. " ++ str_of_nat (length rows)
                         ++ " registros procesados.")])
             (files w1
              ++ [(path_join (output_folder config)
                     ("br_" ++ timestamp ++ ".csv"),
                   Table fieldnames rows)]))
    /\ length rows = length (survivors config).
Proof.
  intros H Hne Hopen Hpath.
  pose proof (process_pdfs_returns _ _ _ _ _ _ _ _ H) as (_ & R & _).
  apply Forall2_length in R.
  rewrite main_after_banner. unfold mbind, prog_bind, bind at 1. rewrite H.
  destruct results as [|r results]; [congruence|].
  unfold save_results_to_csv. rewrite Hopen.
  set (csv_path := path_join _ _) in *.
  exists (sorted (⋃ (dom <$> r :: results))),
    (map (fun record : record_t =>
            writerow (sorted (⋃ (dom <$> r :: results)))
              (clean_value <$> record))
         (r :: results)).
  split.
  - unfold mbind, prog_bind, bind, logging, ret, write_file.
    destruct csv_path as [|c p]; [congruence|].
    cbn [logged files]. rewrite <- app_assoc, length_map. reflexivity.
  - rewrite length_map. symmetry. exact R.
Qed.

Lemma pdf_loop_body_skips (config : Config) (pdf_file : str)
      (results : list record_t) (w : world) :
  document_text path_join pdf_open config pdf_file = [] ->
  exists w',
    pdf_loop_body path_join pdf_open (source_folder config)
      (fields_to_extract config) pdf_file results w = (Returns results, w').
Proof.
  intros Hd. unfold pdf_loop_body, mbind, prog_bind, bind. cbn [logging].
  destruct (extract_text_returns path_join pdf_open config pdf_file
              (World (logged w ++ [(INFO, "Procesando archivo: " ++ pdf_file)])
                 (files w))) as (w2 & E & _).
  rewrite E, Hd. eexists. reflexivity.
Qed.

Lemma all_skipped (config : Config) (docs : list str)
      (results : list record_t) (w : world) :
  Forall (fun f => document_text path_join pdf_open config f = []) docs ->
  exists w',
    for_each docs
      (pdf_loop_body path_join pdf_open (source_folder config)
         (fields_to_extract config)) results w = (Returns results, w').
Proof.
  intros F. revert w. induction F as [|d docs Hd _ IH]; intros w.
  - eexists. reflexivity.
  - cbn [for_each]. unfold mbind, prog_bind, bind at 1.
    destruct (pdf_loop_body_skips config d results w Hd) as [w1 E].
    rewrite E. apply IH.
Qed.

(** X19: when no document yields text, because there is none or because
    every one of them fails or is empty, [main] ends normally, writes no
    file, and its last log entry is the warning that no Record was
    processed; the configured fields are not even looked at. *)
Theorem no_text_no_file (config : Config) (w : world) :
  survivors config = [] ->
  exists w',
    run_main config w = (Returns tt, w')
    /\ files w' = files w
    /\ last (logged w') = Some no_records_warning.
Proof.
  intros Hs.
  assert (P : exists w1, process config (started config w) = (Returns [], w1)).
  { unfold process_pdfs. unfold surviving_documents, input_documents in Hs.
    destruct (path_exists (source_folder config)); cbn [negb].
    - destruct (filter _ (listdir (source_folder config))) as [|d docs] eqn:E.
      + eexists. reflexivity.
      + apply all_skipped. apply Forall_forall. intros f Hf.
        destruct (decide (document_text path_join pdf_open config f = []))
          as [T|T]; [exact T|].
        assert (X : f ∈ filter
                      (fun f => document_text path_join pdf_open config f <> [])
                      (d :: docs))
          by (apply list_elem_of_filter; auto).
        rewrite Hs in X. inversion X.
    - eexists. reflexivity. }
  destruct P as [w1 P].
  pose proof (only_logs_process path_exists listdir path_join pdf_open
                config _ _ _ P) as [Fi _].
  eexists. rewrite main_after_banner.
  unfold mbind, prog_bind, bind at 1. rewrite P.
  split; [reflexivity|]. cbn [logging snd logged files fst].
  split; [exact Fi | apply last_snoc].
Qed.

End Main.

Lemma csv_failure_is_reported_witness :
  main (fun _ => true) sample_listdir sample_join sample_open
    (fun _ => Failed "Permission denied") "20240101_000000" sample_config
    empty_world
  = (Returns tt,
     World (logged (snd sample_started_run)
            ++ [(ERROR, "Error al generar archivo CSV: Permission denied" : str);
                (ERROR, "No se pudo generar el archivo CSV" : str)])
           (files (snd sample_started_run))).
Proof.
  apply (csv_failure_is_reported (fun _ => true) sample_listdir sample_join
           sample_open (fun _ => Failed "Permission denied")
           "20240101_000000" sample_config sample_started_results
           "Permission denied" empty_world (snd sample_started_run)).
  - vm_compute. reflexivity.
  - vm_compute. discriminate.
  - reflexivity.
Defined.

Lemma successful_run_summary_witness :
  exists fieldnames rows,
    main (fun _ => true) sample_listdir sample_join sample_open
      (fun _ => Done tt) "20240101_000000" sample_config empty_world
    = (Returns tt,
       World (logged (snd sample_started_run)
              ++ [(INFO, "Archivo CSV generado exitosamente: "
                         ++ sample_join (output_folder sample_config)
                              ("br_" ++ "20240101_000000" ++ ".csv"));
                  (INFO, "Proceso completado. " ++ str_of_nat (length rows)
                         ++ " registros procesados.")])
             (files (snd sample_started_run)
              ++ [(sample_join (output_folder sample_config)
                     ("br_" ++ "20240101_000000" ++ ".csv"),
                   Table fieldnames rows)]))
    /\ length rows
       = length (surviving_documents (fun _ => true) sample_listdir
                   sample_join sample_open sample_config).
Proof.
  apply (successful_run_summary (fun _ => true) sample_listdir sample_join
           sample_open (fun _ => Done tt) "20240101_000000" sample_config
           sample_started_results empty_world (snd sample_started_run)).
  - vm_compute. reflexivity.
  - vm_compute. discriminate.
  - reflexivity.
  - discriminate.
Defined.

Lemma no_text_no_file_witness :
  exists w',
    main (fun _ => true) sample_listdir sample_join
      (fun _ => Failed "EOF marker not found") (fun _ => Done tt)
      "20240101_000000" sample_config empty_world = (Returns tt, w')
    /\ files w' = files empty_world
    /\ last (logged w') = Some no_records_warning.
Proof.
  apply (no_text_no_file (fun _ => true) sample_listdir sample_join
           (fun _ => Failed "EOF marker not found") (fun _ => Done tt)
           "20240101_000000" sample_config empty_world).
  vm_compute. reflexivity.
Defined.

(** ** Field names without metacharacters are safe *)

Section PlainFields.
Import Re.

Lemma sure_groups_lits (f : str) (r : regex) :
  sure_groups (lits f r) = sure_groups r.
Proof. induction f as [|c f IH]; [reflexivity | exact IH]. Qed.

Lemma plain_field_returns (text field_name : str) :
  Forall (fun c => plain c = true) field_name ->
  exists value, find_field_value text field_name = Returns value.
Proof.
  intros P.
  destruct (decide (field_name = currency_field)) as [->|N1];
    [apply known_fields_never_raise; left; reflexivity|].
  destruct (decide (field_name = ("Nome" : str))) as [->|N2];
    [apply known_fields_never_raise; right; left; reflexivity|].
  destruct (decide (field_name = pis_field)) as [->|N3];
    [apply known_fields_never_raise; right; right; left; reflexivity|].
  assert (U : ~ known_field field_name).
  { unfold known_field. cbn [map fst patterns In].
    intros [E|[E|[E|[]]]]; symmetry in E; contradiction. }
  eapply (sure_group_returns text field_name _ 1 1).
  - rewrite dict_get_unknown by exact U. apply compile_generic, P.
  - cbn [Nat.ltb Nat.leb]. rewrite andb_false_r. reflexivity.
  - lia.
  - rewrite sure_groups_lits. left. reflexivity.
Qed.

End PlainFields.

(** X20: the defect of C3 needs a metacharacter: for every field name made
    of plain characters only, in the table or not, the Field Matcher
    returns a string or [None], whatever the text. *)
Theorem plain_fields_never_raise (text field_name : str) :
  Forall (fun c => plain c = true) field_name ->
  exists value, find_field_value text field_name = Returns value.
Proof. apply plain_field_returns. Qed.

Lemma plain_fields_never_raise_witness :
  exists value,
    find_field_value ("Total (R$): 10" ++ [Re.LF] ++ "Data de Admissao 01/02")
      "Data de Admissao" = Returns value.
Proof.
  apply (plain_fields_never_raise
           ("Total (R$): 10" ++ [Re.LF] ++ "Data de Admissao 01/02")
           "Data de Admissao").
  repeat constructor.
Defined.

Section SafeConfiguration.

Variable path_exists : str -> bool.
Variable listdir : str -> list str.
Variable path_join : str -> str -> str.
Variable pdf_open : str -> attempt (list (attempt str)).
Variable csv_open : str -> attempt unit.
Variable timestamp : str.

(** [c] returns from every state. *)
Definition always_returns {A : Type} (c : prog A) : Prop :=
  forall w, exists a w', c w = (Returns a, w').

Lemma always_returns_ret {A : Type} (a : A) : always_returns (ret a).
Proof. intros w. eexists _, _. reflexivity. Qed.

Lemma always_returns_logging (l : level) (msg : str) :
  always_returns (logging l msg).
Proof. intros w. eexists _, _. reflexivity. Qed.

Lemma always_returns_bind {A B : Type} (c : prog A) (k : A -> prog B) :
  always_returns c -> (forall a, always_returns (k a)) ->
  always_returns (c ≫= k).
Proof.
  intros Hc Hk w. destruct (Hc w) as (a & w1 & E).
  destruct (Hk a w1) as (b & w2 & E2).
  exists b, w2. unfold mbind, prog_bind, bind. rewrite E. exact E2.
Qed.

Lemma always_returns_for_each {A S : Type} (l : list A)
      (body : A -> S -> prog S) (acc : S) :
  (forall x a, x ∈ l -> always_returns (body x a)) ->
  always_returns (for_each l body acc).
Proof.
  revert acc. induction l as [|x l IH]; intros acc Hb; cbn [for_each].
  - apply always_returns_ret.
  - apply always_returns_bind.
    + apply Hb. left.
    + intros a. apply IH. intros y b Hy. apply Hb. right. exact Hy.
Qed.

Lemma always_returns_process (config : Config) :
  Forall (fun f => Forall (fun c => plain c = true) f)
    (fields_to_extract config) ->
  always_returns (process_pdfs path_exists listdir path_join pdf_open config).
Proof.
  intros P. unfold process_pdfs. destruct (negb _).
  { apply always_returns_bind; [apply always_returns_logging|].
    intros _. apply always_returns_ret. }
  destruct (filter _ _) as [|d docs].
  { apply always_returns_bind; [apply always_returns_logging|].
    intros _. apply always_returns_ret. }
  apply always_returns_for_each. intros pdf_file results _.
  unfold pdf_loop_body.
  apply always_returns_bind; [apply always_returns_logging|]. intros _.
  apply always_returns_bind.
  { unfold extract_text_from_pdf. destruct (read_pdf _ _).
    - apply always_returns_ret.
    - apply always_returns_bind; [apply always_returns_logging|].
      intros _. apply always_returns_ret. }
  intros [|c text]; [apply always_returns_ret|].
  apply always_returns_bind; [|intros r; apply always_returns_ret].
  apply always_returns_for_each. intros field rec Hin.
  unfold field_loop_body. apply always_returns_bind.
  - intros w. rewrite Forall_forall in P.
    destruct (plain_field_returns (c :: text) field (P field Hin)) as [v E].
    exists v, w. unfold lift. rewrite E. reflexivity.
  - intros v. apply always_returns_bind; [apply always_returns_logging|].
    intros _. apply always_returns_ret.
Qed.

Lemma always_returns_save (results : list record_t) (output_folder : str) :
  always_returns
    (save_results_to_csv path_join csv_open timestamp results output_folder).
Proof.
  unfold save_results_to_csv. destruct results; [apply always_returns_ret|].
  destruct (csv_open _).
  - apply always_returns_bind; [intros w; eexists _, _; reflexivity|].
    intros _. apply always_returns_bind; [apply always_returns_logging|].
    intros _. apply always_returns_ret.
  - apply always_returns_bind; [apply always_returns_logging|].
    intros _. apply always_returns_ret.
Qed.

(** X21: a configuration whose field names are made of plain characters
    is safe: whatever the folder, the documents and the state of the file
    system, [process_pdfs] returns a result set and [main] ends
    normally. *)
Theorem plain_configuration_never_raises (config : Config) (w : world) :
  Forall (fun f => Forall (fun c => plain c = true) f)
    (fields_to_extract config) ->
  returned (fst (process_pdfs path_exists listdir path_join pdf_open config w))
  = true
  /\ fst (main path_exists listdir path_join pdf_open csv_open timestamp
            config w) = Returns tt.
Proof.
  intros P. split.
  - destruct (always_returns_process config P w) as (r & w' & E).
    rewrite E. reflexivity.
  - assert (M : always_returns
                  (main path_exists listdir path_join pdf_open csv_open
                     timestamp config)).
    { unfold main.
      do 4 (apply always_returns_bind; [apply always_returns_logging|];
            intros _).
      apply always_returns_bind; [apply always_returns_process, P|].
      intros [|r results]; [apply always_returns_logging|].
      apply always_returns_bind; [apply always_returns_save|].
      intros [|c p]; apply always_returns_logging. }
    destruct (M w) as ([] & w' & E). rewrite E. reflexivity.
Qed.

End SafeConfiguration.

Lemma plain_configuration_never_raises_witness :
  returned (fst (process_pdfs (fun _ => true) sample_listdir sample_join
                   sample_open sample_config empty_world)) = true
  /\ fst (main (fun _ => true) sample_listdir sample_join sample_open
            (fun _ => Done tt) "20240101_000000" sample_config empty_world)
     = Returns tt.
Proof.
  apply (plain_configuration_never_raises (fun _ => true) sample_listdir
           sample_join sample_open (fun _ => Done tt) "20240101_000000"
           sample_config empty_world).
  repeat constructor.
Defined.
